(** * AES (Rijndael) with ECB and CBC chaining: a shallow embedding of
    [src/aes/mod.ts] and the properties its specification states.

    Bytes are integers in [Z]; a [Uint8Array] is a [list Z] whose stores
    truncate to eight bits; the JavaScript bit operators are the [Z] ones
    (the operands are bytes or results of [xtime] on them, below [2^11]
    by [xtime_small], so the 32-bit conversion applied by [&], [^] and
    [<<] never changes them). *)

From Stdlib Require Import ZArith List Lia Bool Btauto Morphisms Setoid.
From stdpp Require Import base list.
Import ListNotations.
Local Open Scope Z_scope.

(** ** Typed arrays *)

Definition byte (x : Z) : Prop := 0 <= x < 256.
Definition bytes (a : list Z) : Prop := Forall byte a.

(** The conversion applied by every store into a [Uint8Array]. *)
Definition u8 (v : Z) : Z := v mod 256.

(** [a[i]] read in a bit operation: an index out of range yields
    [undefined], which the bit operators take as [0].  Reads that index
    a table are in range wherever the source makes them (states of 16
    bytes, words of the key schedule). *)
Definition rd (a : list Z) (i : nat) : Z := default 0 (a !! i).

(** [a[i] = v]: truncated to a byte, ignored out of range. *)
Definition wr (a : list Z) (i : nat) (v : Z) : list Z := <[i := u8 v]> a.

(** [new Uint8Array(n)] *)
Definition zeros (n : nat) : list Z := replicate n 0.

(** [a.subarray(b, e)] (and [a.slice(b, e)]), clamped to the array. *)
Definition subarray (a : list Z) (b e : nat) : list Z := take (e - b) (drop b a).

(** [a.set(src, off)]; the source only calls it with
    [off + src.length <= a.length] (otherwise JavaScript raises a
    [RangeError]). *)
Definition set_at (a src : list Z) (off : nat) : list Z :=
  take off a ++ src ++ drop (off + length src) a.

(** [for (let i = lo; i < lo + n; i++) body] over a threaded state. *)
Definition for_range {St : Type} (lo n : nat) (body : nat -> St -> St) (s : St) : St :=
  fold_left (fun s i => body i s) (seq lo n) s.

(** The offsets visited by [for (let i = 0; i < len; i += 16)]. *)
Definition offsets (len : nat) : list nat :=
  map (fun k => (16 * k)%nat) (seq 0 ((len + 15) / 16)).

(** ** Errors *)

Inductive Error : Set :=
  | IvNotSet          (* "IV is not set." *)
  | IvLength          (* "IV should be 16 bytes long." *)
  | KeyLength         (* "Key should be 16, 24 or 32 bytes long" *)
  | UnsupportedMode   (* "Unsupported Mode." *)
  | InputLength       (* "Input should be multiple of 16" *)
  | PaddingError      (* raised by [unpad] *)
  | TypeError.        (* indexing [undefined] *)

Definition result (A : Type) : Type := Error + A.
Definition throw {A : Type} (e : Error) : result A := inl e.
Definition ok {A : Type} (a : A) : result A := inr a.

(** ** Constant tables *)

Definition RCON : list Z :=
  [ 0x8d; 0x01; 0x02; 0x04; 0x08; 0x10; 0x20; 0x40; 0x80; 0x1b; 0x36 ]%Z.

Definition SBOX : list Z :=
  [ 0x63; 0x7c; 0x77; 0x7b; 0xf2; 0x6b; 0x6f; 0xc5; 0x30; 0x01; 0x67; 0x2b; 0xfe; 0xd7; 0xab; 0x76;
    0xca; 0x82; 0xc9; 0x7d; 0xfa; 0x59; 0x47; 0xf0; 0xad; 0xd4; 0xa2; 0xaf; 0x9c; 0xa4; 0x72; 0xc0;
    0xb7; 0xfd; 0x93; 0x26; 0x36; 0x3f; 0xf7; 0xcc; 0x34; 0xa5; 0xe5; 0xf1; 0x71; 0xd8; 0x31; 0x15;
    0x04; 0xc7; 0x23; 0xc3; 0x18; 0x96; 0x05; 0x9a; 0x07; 0x12; 0x80; 0xe2; 0xeb; 0x27; 0xb2; 0x75;
    0x09; 0x83; 0x2c; 0x1a; 0x1b; 0x6e; 0x5a; 0xa0; 0x52; 0x3b; 0xd6; 0xb3; 0x29; 0xe3; 0x2f; 0x84;
    0x53; 0xd1; 0x00; 0xed; 0x20; 0xfc; 0xb1; 0x5b; 0x6a; 0xcb; 0xbe; 0x39; 0x4a; 0x4c; 0x58; 0xcf;
    0xd0; 0xef; 0xaa; 0xfb; 0x43; 0x4d; 0x33; 0x85; 0x45; 0xf9; 0x02; 0x7f; 0x50; 0x3c; 0x9f; 0xa8;
    0x51; 0xa3; 0x40; 0x8f; 0x92; 0x9d; 0x38; 0xf5; 0xbc; 0xb6; 0xda; 0x21; 0x10; 0xff; 0xf3; 0xd2;
    0xcd; 0x0c; 0x13; 0xec; 0x5f; 0x97; 0x44; 0x17; 0xc4; 0xa7; 0x7e; 0x3d; 0x64; 0x5d; 0x19; 0x73;
    0x60; 0x81; 0x4f; 0xdc; 0x22; 0x2a; 0x90; 0x88; 0x46; 0xee; 0xb8; 0x14; 0xde; 0x5e; 0x0b; 0xdb;
    0xe0; 0x32; 0x3a; 0x0a; 0x49; 0x06; 0x24; 0x5c; 0xc2; 0xd3; 0xac; 0x62; 0x91; 0x95; 0xe4; 0x79;
    0xe7; 0xc8; 0x37; 0x6d; 0x8d; 0xd5; 0x4e; 0xa9; 0x6c; 0x56; 0xf4; 0xea; 0x65; 0x7a; 0xae; 0x08;
    0xba; 0x78; 0x25; 0x2e; 0x1c; 0xa6; 0xb4; 0xc6; 0xe8; 0xdd; 0x74; 0x1f; 0x4b; 0xbd; 0x8b; 0x8a;
    0x70; 0x3e; 0xb5; 0x66; 0x48; 0x03; 0xf6; 0x0e; 0x61; 0x35; 0x57; 0xb9; 0x86; 0xc1; 0x1d; 0x9e;
    0xe1; 0xf8; 0x98; 0x11; 0x69; 0xd9; 0x8e; 0x94; 0x9b; 0x1e; 0x87; 0xe9; 0xce; 0x55; 0x28; 0xdf;
    0x8c; 0xa1; 0x89; 0x0d; 0xbf; 0xe6; 0x42; 0x68; 0x41; 0x99; 0x2d; 0x0f; 0xb0; 0x54; 0xbb; 0x16 ]%Z.

Definition RSBOX : list Z :=
  [ 0x52; 0x09; 0x6a; 0xd5; 0x30; 0x36; 0xa5; 0x38; 0xbf; 0x40; 0xa3; 0x9e; 0x81; 0xf3; 0xd7; 0xfb;
    0x7c; 0xe3; 0x39; 0x82; 0x9b; 0x2f; 0xff; 0x87; 0x34; 0x8e; 0x43; 0x44; 0xc4; 0xde; 0xe9; 0xcb;
    0x54; 0x7b; 0x94; 0x32; 0xa6; 0xc2; 0x23; 0x3d; 0xee; 0x4c; 0x95; 0x0b; 0x42; 0xfa; 0xc3; 0x4e;
    0x08; 0x2e; 0xa1; 0x66; 0x28; 0xd9; 0x24; 0xb2; 0x76; 0x5b; 0xa2; 0x49; 0x6d; 0x8b; 0xd1; 0x25;
    0x72; 0xf8; 0xf6; 0x64; 0x86; 0x68; 0x98; 0x16; 0xd4; 0xa4; 0x5c; 0xcc; 0x5d; 0x65; 0xb6; 0x92;
    0x6c; 0x70; 0x48; 0x50; 0xfd; 0xed; 0xb9; 0xda; 0x5e; 0x15; 0x46; 0x57; 0xa7; 0x8d; 0x9d; 0x84;
    0x90; 0xd8; 0xab; 0x00; 0x8c; 0xbc; 0xd3; 0x0a; 0xf7; 0xe4; 0x58; 0x05; 0xb8; 0xb3; 0x45; 0x06;
    0xd0; 0x2c; 0x1e; 0x8f; 0xca; 0x3f; 0x0f; 0x02; 0xc1; 0xaf; 0xbd; 0x03; 0x01; 0x13; 0x8a; 0x6b;
    0x3a; 0x91; 0x11; 0x41; 0x4f; 0x67; 0xdc; 0xea; 0x97; 0xf2; 0xcf; 0xce; 0xf0; 0xb4; 0xe6; 0x73;
    0x96; 0xac; 0x74; 0x22; 0xe7; 0xad; 0x35; 0x85; 0xe2; 0xf9; 0x37; 0xe8; 0x1c; 0x75; 0xdf; 0x6e;
    0x47; 0xf1; 0x1a; 0x71; 0x1d; 0x29; 0xc5; 0x89; 0x6f; 0xb7; 0x62; 0x0e; 0xaa; 0x18; 0xbe; 0x1b;
    0xfc; 0x56; 0x3e; 0x4b; 0xc6; 0xd2; 0x79; 0x20; 0x9a; 0xdb; 0xc0; 0xfe; 0x78; 0xcd; 0x5a; 0xf4;
    0x1f; 0xdd; 0xa8; 0x33; 0x88; 0x07; 0xc7; 0x31; 0xb1; 0x12; 0x10; 0x59; 0x27; 0x80; 0xec; 0x5f;
    0x60; 0x51; 0x7f; 0xa9; 0x19; 0xb5; 0x4a; 0x0d; 0x2d; 0xe5; 0x7a; 0x9f; 0x93; 0xc9; 0x9c; 0xef;
    0xa0; 0xe0; 0x3b; 0x4d; 0xae; 0x2a; 0xf5; 0xb0; 0xc8; 0xeb; 0xbb; 0x3c; 0x83; 0x53; 0x99; 0x61;
    0x17; 0x2b; 0x04; 0x7e; 0xba; 0x77; 0xd6; 0x26; 0xe1; 0x69; 0x14; 0x63; 0x55; 0x21; 0x0c; 0x7d ]%Z.

(** [AES.SBOX[x]] and [AES.RSBOX[x]] for a byte [x]. *)
Definition sbox (x : Z) : Z := default 0 (SBOX !! Z.to_nat x).
Definition rsbox (x : Z) : Z := default 0 (RSBOX !! Z.to_nat x).
Definition rcon (i : nat) : Z := default 0 (RCON !! i).

(** ** The GF(2^8) doubling helper *)

(** [<<] works on 32-bit integers in the source: this is [xtime] for
    [0 <= x < 2^30], where the shift does not wrap; the source passes
    values below [2^10]. *)
Definition xtime (x : Z) : Z :=
  if negb (Z.land x 0x80 =? 0) then Z.lxor (Z.shiftl x 1) 0x1b else Z.shiftl x 1.

(** ** Padding *)

(** Modelled from the spec: the [Padding] enumeration of
    [utils/padding.ts], which is not part of the sources; the
    specification describes the PKCS7 scheme only. *)
Inductive Padding : Set := PKCS7.

(** Modelled from the spec: [pad] of [utils/padding.ts] (section 4.2):
    let [n = blockSize - (len(data) mod blockSize)]; if [n == 0] then
    [n := blockSize]; append [n] bytes of value [n]. *)
Definition pad (data : list Z) (padding : Padding) (blockSize : nat) : list Z :=
  let n := (blockSize - length data mod blockSize)%nat in
  let n := if (n =? 0)%nat then blockSize else n in
  data ++ replicate n (Z.of_nat n).

(** Modelled from the spec: [unpad] of [utils/padding.ts] (section 4.2):
    let [v] be the last byte; a padding error if [v == 0],
    [v > blockSize], [v > len(data)] or one of the last [v] bytes differs
    from [v]; otherwise [data] without its last [v] bytes.  The empty
    buffer has no last byte and is taken as a padding error. *)
Definition unpad (data : list Z) (padding : Padding) (blockSize : nat) : result (list Z) :=
  match last data with
  | None => throw PaddingError
  | Some v =>
      if (v =? 0) || (Z.of_nat blockSize <? v) || (Z.of_nat (length data) <? v)
         || negb (forallb (Z.eqb v) (drop (length data - Z.to_nat v) data))
      then throw PaddingError
      else ok (take (length data - Z.to_nat v) data)
  end.

(** ** The cipher *)

(** The run-time values of [enum Mode { ECB = 1, CBC }]. *)
Definition Mode_ECB : Z := 1.
Definition Mode_CBC : Z := 2.

Record AESOptions : Type := {
  opt_mode : option Z;
  opt_iv : option (list Z);
  opt_padding : option Padding
}.

(** The private fields of an instance; [key] holds the expanded key. *)
Record AES : Type := {
  key : list Z;
  mode : Z;
  iv : option (list Z);
  padding : Padding
}.

Definition rotWord (ks : list Z) (column : nat) : list Z :=
  let offset := (column * 4)%nat in
  let tmp := rd ks offset in
  let ks := wr ks offset (rd ks (offset + 1)) in
  let ks := wr ks (offset + 1) (rd ks (offset + 2)) in
  let ks := wr ks (offset + 2) (rd ks (offset + 3)) in
  wr ks (offset + 3) tmp.

Definition subWord (ks : list Z) (column : nat) : list Z :=
  let offset := (column * 4)%nat in
  for_range 0 4 (fun i ks => wr ks (offset + i) (sbox (rd ks (offset + i)))) ks.

(** The loop body of [keyExpansion], in its three parts.  First the
    previous word is copied to word [i]. *)
Definition copy_previous_word (i : nat) (ks : list Z) : list Z :=
  let offset := (i * 4)%nat in
  let ks := wr ks offset (rd ks (offset - 4)) in
  let ks := wr ks (offset + 1) (rd ks (offset - 3)) in
  let ks := wr ks (offset + 2) (rd ks (offset - 2)) in
  wr ks (offset + 3) (rd ks (offset - 1)).

(** Then word [i] is transformed in place, depending on [i % nk]. *)
Definition transform_word (nk i : nat) (ks : list Z) : list Z :=
  let offset := (i * 4)%nat in
  if (i mod nk =? 0)%nat then
    let ks := rotWord ks i in
    let ks := subWord ks i in
    wr ks offset (Z.lxor (rd ks offset) (rcon (i / nk)))
  else if (6 <? nk)%nat && (i mod nk =? 4)%nat then
    subWord ks i
  else ks.

(** Last, word [i - nk] is XORed into word [i]. *)
Definition xor_earlier_word (nk i : nat) (ks : list Z) : list Z :=
  let prevOffset := ((i - nk) * 4)%nat in
  let offset := (i * 4)%nat in
  let ks := wr ks offset (Z.lxor (rd ks offset) (rd ks prevOffset)) in
  let ks := wr ks (offset + 1) (Z.lxor (rd ks (offset + 1)) (rd ks (prevOffset + 1))) in
  let ks := wr ks (offset + 2) (Z.lxor (rd ks (offset + 2)) (rd ks (prevOffset + 2))) in
  wr ks (offset + 3) (Z.lxor (rd ks (offset + 3)) (rd ks (prevOffset + 3))).

(** One iteration of the loop of [keyExpansion]. *)
Definition keyExpansion_step (nk i : nat) (ks : list Z) : list Z :=
  let ks := copy_previous_word i ks in
  let ks := transform_word nk i ks in
  xor_earlier_word nk i ks.

(** [key.length / 4] is a floating-point division in the source; it is
    only reached with lengths 16, 24 and 32, where it is exact. *)
Definition keyExpansion (key : list Z) : list Z :=
  let nb := 4%nat in
  let nk := (length key / 4)%nat in
  let nr := (nk + 6)%nat in
  let ks := zeros (16 * (nr + 1)) in
  let ks := set_at ks key 0 in
  for_range nk (nb * (nr + 1) - nk) (keyExpansion_step nk) ks.

Definition addRoundKey (key state : list Z) (round : nat) : list Z :=
  for_range 0 16
    (fun i state => wr state i (Z.lxor (rd state i) (rd key (round * 16 + i)))) state.

Definition subBytes (state : list Z) : list Z :=
  for_range 0 16 (fun i state => wr state i (sbox (rd state i))) state.

Definition invSubBytes (state : list Z) : list Z :=
  for_range 0 16 (fun i state => wr state i (rsbox (rd state i))) state.

Definition shiftRows (state : list Z) : list Z :=
  let t := rd state 1 in
  let state := wr state 1 (rd state 5) in
  let state := wr state 5 (rd state 9) in
  let state := wr state 9 (rd state 13) in
  let state := wr state 13 t in
  let t := rd state 10 in
  let state := wr state 10 (rd state 2) in
  let state := wr state 2 t in
  let t := rd state 14 in
  let state := wr state 14 (rd state 6) in
  let state := wr state 6 t in
  let t := rd state 15 in
  let state := wr state 15 (rd state 11) in
  let state := wr state 11 (rd state 7) in
  let state := wr state 7 (rd state 3) in
  wr state 3 t.

Definition invShiftRows (state : list Z) : list Z :=
  let t := rd state 13 in
  let state := wr state 13 (rd state 9) in
  let state := wr state 9 (rd state 5) in
  let state := wr state 5 (rd state 1) in
  let state := wr state 1 t in
  let t := rd state 10 in
  let state := wr state 10 (rd state 2) in
  let state := wr state 2 t in
  let t := rd state 14 in
  let state := wr state 14 (rd state 6) in
  let state := wr state 6 t in
  let t := rd state 3 in
  let state := wr state 3 (rd state 7) in
  let state := wr state 7 (rd state 11) in
  let state := wr state 11 (rd state 15) in
  wr state 15 t.

(** The body of the loop of [mixColumns] at column offset [i]. *)
Definition mixColumns_step (i : nat) (state : list Z) : list Z :=
  let a := rd state i in
  let b := rd state (i + 1) in
  let c := rd state (i + 2) in
  let d := rd state (i + 3) in
  let e := Z.lxor (Z.lxor (Z.lxor a b) c) d in
  let state := wr state i (Z.lxor (rd state i) (Z.lxor e (xtime (Z.lxor a b)))) in
  let state := wr state (i + 1) (Z.lxor (rd state (i + 1)) (Z.lxor e (xtime (Z.lxor b c)))) in
  let state := wr state (i + 2) (Z.lxor (rd state (i + 2)) (Z.lxor e (xtime (Z.lxor c d)))) in
  wr state (i + 3) (Z.lxor (rd state (i + 3)) (Z.lxor e (xtime (Z.lxor d a)))).

Definition mixColumns (state : list Z) : list Z :=
  fold_left (fun state i => mixColumns_step i state) [0; 4; 8; 12]%nat state.

(** The body of the loop of [invMixColumns] at column offset [i]. *)
Definition invMixColumns_step (i : nat) (state : list Z) : list Z :=
  let a := rd state i in
  let b := rd state (i + 1) in
  let c := rd state (i + 2) in
  let d := rd state (i + 3) in
  let e := Z.lxor (Z.lxor (Z.lxor a b) c) d in
  let z := xtime e in
  let x := Z.lxor e (xtime (xtime (Z.lxor (Z.lxor z a) c))) in
  let y := Z.lxor e (xtime (xtime (Z.lxor (Z.lxor z b) d))) in
  let state := wr state i (Z.lxor (rd state i) (Z.lxor x (xtime (Z.lxor a b)))) in
  let state := wr state (i + 1) (Z.lxor (rd state (i + 1)) (Z.lxor y (xtime (Z.lxor b c)))) in
  let state := wr state (i + 2) (Z.lxor (rd state (i + 2)) (Z.lxor x (xtime (Z.lxor c d)))) in
  wr state (i + 3) (Z.lxor (rd state (i + 3)) (Z.lxor y (xtime (Z.lxor d a)))).

Definition invMixColumns (state : list Z) : list Z :=
  fold_left (fun state i => invMixColumns_step i state) [0; 4; 8; 12]%nat state.

(** The body of the round loop of [encryptBlock]. *)
Definition encrypt_round (key : list Z) (i : nat) (state : list Z) : list Z :=
  let state := subBytes state in
  let state := shiftRows state in
  let state := mixColumns state in
  addRoundKey key state i.

(** [this.key.length / 16 - 1] is a floating-point division in the
    source; it is exact when the length of the key array is a multiple
    of 16, as it is for every array [keyExpansion] returns, and only
    then is this [encryptBlock] (and [decryptBlock] below). *)
Definition encryptBlock (key data : list Z) : list Z :=
  let nr := (length key / 16 - 1)%nat in
  let state := data in
  let state := addRoundKey key state 0 in
  let state := for_range 1 (nr - 1) (encrypt_round key) state in
  let state := subBytes state in
  let state := shiftRows state in
  addRoundKey key state nr.

(** The body of the round loop of [decryptBlock]. *)
Definition decrypt_round (key : list Z) (i : nat) (state : list Z) : list Z :=
  let state := invShiftRows state in
  let state := invSubBytes state in
  let state := addRoundKey key state i in
  invMixColumns state.

(** The loop of [decryptBlock] counts [i] down from [nr - 1] to [1]. *)
Definition decryptBlock (key data : list Z) : list Z :=
  let nr := (length key / 16 - 1)%nat in
  let state := data in
  let state := addRoundKey key state nr in
  let state :=
    fold_left (fun state i => decrypt_round key i state) (rev (seq 1 (nr - 1))) state in
  let state := invShiftRows state in
  let state := invSubBytes state in
  addRoundKey key state 0.

(** ** Construction *)

(** The fields set from [options]: a field is taken when it is truthy
    (a mode other than [0], any byte array, any padding); the defaults
    are ECB, no IV and PKCS7.  The key and the IV have already been
    turned into bytes by [toUint8Array] ([utils/helpers.ts]). *)
Definition option_mode (options : option AESOptions) : Z :=
  match options with
  | Some {| opt_mode := Some m |} => if m =? 0 then Mode_ECB else m
  | _ => Mode_ECB
  end.

Definition option_iv (options : option AESOptions) : option (list Z) :=
  match options with
  | Some o => opt_iv o
  | None => None
  end.

Definition option_padding (options : option AESOptions) : Padding :=
  match options with
  | Some {| opt_padding := Some p |} => p
  | _ => PKCS7
  end.

(** The IV check of the constructor. *)
Definition check_iv (mode : Z) (iv : option (list Z)) : result unit :=
  if mode =? Mode_CBC then
    match iv with
    | None => throw IvNotSet
    | Some v => if negb (length v =? 16)%nat then throw IvLength else ok tt
    end
  else ok tt.

(** [new AES(key, options)] *)
Definition new_AES (key : list Z) (options : option AESOptions) : result AES :=
  let this_iv := option_iv options in
  let this_mode := option_mode options in
  let this_padding := option_padding options in
  match check_iv this_mode this_iv with
  | inl e => inl e
  | inr _ =>
      if negb (existsb (Nat.eqb (length key)) [16; 24; 32]%nat) then throw KeyLength
      else ok {| key := keyExpansion key; mode := this_mode;
                 iv := this_iv; padding := this_padding |}
  end.

(** ** Whole-message operations

    Neither method assigns a field of [this]; [prev] is a local variable
    that starts as an alias of [this.iv] and is only read through.  Both
    return the instance as they leave it together with their outcome.
    [this.iv!] is [undefined] when no IV was given (the constructor rules
    that out for CBC); indexing it in the first iteration of a loop raises
    a [TypeError]. *)

(** [block[j] ^= prev[j]] for [j] from 0 to 15. *)
Definition xor_into (block prev : list Z) : list Z :=
  for_range 0 16 (fun j block => wr block j (Z.lxor (rd block j) (rd prev j))) block.

(** The body of the ECB loops; [f] is [encryptBlock] or [decryptBlock]. *)
Definition ecb_step (f : list Z -> list Z) (data : list Z) (out : list Z) (i : nat) : list Z :=
  let block := f (subarray data i (i + 16)) in
  set_at out block i.

(** The body of the CBC loop of [encrypt].  [block] is a view into the
    padded copy [data], so the XOR lands in [data] as well. *)
Definition cbc_encrypt_step (key : list Z) (st : list Z * list Z * list Z) (i : nat)
  : list Z * list Z * list Z :=
  let '(data, encrypted, prev) := st in
  let block := subarray data i (i + 16) in
  let block := xor_into block prev in
  let data := set_at data block i in
  let enc := encryptBlock key block in
  let encrypted := set_at encrypted enc i in
  (data, encrypted, enc).

(** The body of the CBC loop of [decrypt]; [enc] is a fresh copy made by
    [decryptBlock], the input [data] is left as it is. *)
Definition cbc_decrypt_step (key data : list Z) (st : list Z * list Z) (i : nat)
  : list Z * list Z :=
  let '(decrypted, prev) := st in
  let block := subarray data i (i + 16) in
  let enc := decryptBlock key block in
  let enc := xor_into enc prev in
  let decrypted := set_at decrypted enc i in
  (decrypted, block).

Definition encrypt (this : AES) (data : list Z) : AES * result (list Z) :=
  let data := pad data (padding this) 16 in
  let encrypted := zeros (length data) in
  if mode this =? Mode_ECB then
    let encrypted :=
      fold_left (ecb_step (encryptBlock (key this)) data) (offsets (length data)) encrypted in
    (this, ok encrypted)
  else if mode this =? Mode_CBC then
    match iv this with
    | None => (this, throw TypeError)
    | Some prev =>
        let '(_, encrypted, _) :=
          fold_left (cbc_encrypt_step (key this)) (offsets (length data))
                    (data, encrypted, prev) in
        (this, ok encrypted)
    end
  else (this, throw UnsupportedMode).

Definition decrypt (this : AES) (data : list Z) : AES * result (list Z) :=
  if negb (length data mod 16 =? 0)%nat then (this, throw InputLength)
  else
    let decrypted := zeros (length data) in
    if mode this =? Mode_ECB then
      let decrypted :=
        fold_left (ecb_step (decryptBlock (key this)) data) (offsets (length data)) decrypted in
      (this, unpad decrypted (padding this) 16)
    else if mode this =? Mode_CBC then
      match iv this with
      | None =>
          if (length data =? 0)%nat then (this, unpad decrypted (padding this) 16)
          else (this, throw TypeError)
      | Some prev =>
          let '(decrypted, _) :=
            fold_left (cbc_decrypt_step (key this) data) (offsets (length data))
                      (decrypted, prev) in
          (this, unpad decrypted (padding this) 16)
      end
    else (this, throw UnsupportedMode).

(** * Properties *)

(** ** Bytes and bit operations *)

Definition eqm (x y : Z) : Prop := u8 x = u8 y.

(** An array of [n] bytes. *)
Definition shaped (n : nat) (a : list Z) : Prop := length a = n /\ bytes a.

(** What the message loops compute, block after block: these follow the
    loops of [encrypt] and [decrypt] on an input of [n] whole blocks and
    are proved equal to them below. *)
Fixpoint ecb_blocks (n : nat) (f : list Z -> list Z) (data : list Z) : list Z :=
  match n with
  | O => []
  | S n => f (take 16 data) ++ ecb_blocks n f (drop 16 data)
  end.

Fixpoint cbc_encrypt_blocks (n : nat) (E : list Z -> list Z) (prev data : list Z) : list Z :=
  match n with
  | O => []
  | S n =>
      let enc := E (xor_into (take 16 data) prev) in
      enc ++ cbc_encrypt_blocks n E enc (drop 16 data)
  end.

Fixpoint cbc_decrypt_blocks (n : nat) (D : list Z -> list Z) (prev data : list Z) : list Z :=
  match n with
  | O => []
  | S n =>
      let block := take 16 data in
      xor_into (D block) prev ++ cbc_decrypt_blocks n D block (drop 16 data)
  end.

(** The key schedule as the specification states it, over 4-byte words:
    [word w i] is word [i] of the byte array [w]. *)
Definition word (w : list Z) (i : nat) : list Z :=
  [rd w (4 * i); rd w (4 * i + 1); rd w (4 * i + 2); rd w (4 * i + 3)].

Definition xor_word (a b : list Z) : list Z := zip_with Z.lxor a b.

Definition RotWord (w : list Z) : list Z :=
  match w with
  | a :: r => r ++ [a]
  | [] => []
  end.

Definition SubWord (w : list Z) : list Z := map sbox w.

(** [T]: the identity, except for rotation, substitution and the round
    constant when [i % Nk == 0], and substitution alone when [Nk > 6] and
    [i % Nk == 4]. *)
Definition schedule_T (Nk i : nat) (w : list Z) : list Z :=
  if (i mod Nk =? 0)%nat then
    xor_word (SubWord (RotWord w)) [rcon (i / Nk); 0; 0; 0]
  else if (6 <? Nk)%nat && (i mod Nk =? 4)%nat then SubWord w
  else w.

Definition next_word (Nk i : nat) (w : list Z) : list Z :=
  xor_word (word w (i - Nk)) (schedule_T Nk i (word w (i - 1))).

(** The array after [m] more words have been appended to [w], which
    holds words [0 .. i-1]. *)
Fixpoint expand_words (Nk i m : nat) (w : list Z) : list Z :=
  match m with
  | O => w
  | S m => expand_words Nk (S i) m (w ++ next_word Nk i w)
  end.

(** The doubling in GF(2^8) as the specification words it: shift left one
    bit, truncate to a byte; if the dropped high bit was set, XOR the
    result with 0x1b. *)
Definition double_spec (x : Z) : Z :=
  let r := u8 (Z.shiftl x 1) in
  if Z.testbit x 7 then Z.lxor r 0x1b else r.

(** The vectors of [tests/aes.test.ts]. *)
Definition test_block : list Z := [1; 2; 3; 4; 5; 6; 7; 8; 9; 10; 11; 12; 13; 14; 15; 16].
Definition test_key : list Z := test_block.
Definition test_iv : list Z := test_block.
Definition test_plaintext : list Z := test_block ++ test_block.
Definition test_cipher_block : list Z :=
  [0x34; 0xc3; 0x3b; 0x7f; 0x14; 0xfd; 0x53; 0xdc; 0xea; 0x25; 0xe0; 0x1a; 0x02; 0xe1; 0x67; 0x27].

(** The encryption, under [test_key], of the block of sixteen bytes 16
    that PKCS7 appends to a message of whole blocks. *)
Definition padding_cipher_block : list Z :=
  [108; 192; 10; 102; 210; 173; 131; 255; 215; 110; 154; 43; 202; 216; 154; 1].

Definition cbc_options : option AESOptions :=
  Some {| opt_mode := Some Mode_CBC; opt_iv := Some test_iv; opt_padding := None |}.

(** Block [j] of an array of whole blocks. *)
Definition block (a : list Z) (j : nat) : list Z := subarray a (16 * j) (16 * j + 16).

(** Multiplication in GF(2^8) by the entries of the two MixColumns
    matrices, from the doubling [double_spec]. *)
Definition gf2 (x : Z) : Z := double_spec x.
Definition gf3 (x : Z) : Z := Z.lxor (gf2 x) x.
Definition gf4 (x : Z) : Z := gf2 (gf2 x).
Definition gf8 (x : Z) : Z := gf2 (gf4 x).
Definition gf9 (x : Z) : Z := Z.lxor (gf8 x) x.
Definition gf11 (x : Z) : Z := Z.lxor (Z.lxor (gf8 x) (gf2 x)) x.
Definition gf13 (x : Z) : Z := Z.lxor (Z.lxor (gf8 x) (gf4 x)) x.
Definition gf14 (x : Z) : Z := Z.lxor (Z.lxor (gf8 x) (gf4 x)) (gf2 x).

(** The state as a 4x4 matrix stored column after column: entry [k] is
    in row [k mod 4] and column [k / 4].  [shifted k] is the index, [r]
    columns further in its row, that a rotation of row [r] by [r] brings
    to [k]; [unshifted k] is the index that the opposite rotation
    brings to [k]. *)
Definition shifted (k : nat) : nat := (k mod 4 + 4 * ((k / 4 + k mod 4) mod 4))%nat.
Definition unshifted (k : nat) : nat := (k mod 4 + 4 * ((k / 4 + 4 - k mod 4) mod 4))%nat.

Lemma u8_land (x : Z) : u8 x = Z.land x 255.
Proof. unfold u8. change 255 with (Z.ones 8). now rewrite Z.land_ones by lia. Qed.

Lemma u8_byte (x : Z) : byte (u8 x).
Proof. unfold u8, byte. apply Z.mod_pos_bound. lia. Qed.

Lemma u8_id (x : Z) : byte x -> u8 x = x.
Proof. unfold u8, byte. intros H. now apply Z.mod_small. Qed.

Lemma u8_u8 (x : Z) : u8 (u8 x) = u8 x.
Proof. apply u8_id, u8_byte. Qed.

Lemma u8_lxor (x y : Z) : u8 (Z.lxor x y) = Z.lxor (u8 x) (u8 y).
Proof.
  rewrite !u8_land. apply Z.bits_inj'. intros n _.
  rewrite Z.lxor_spec, !Z.land_spec, Z.lxor_spec.
  destruct (Z.testbit 255 n); btauto.
Qed.

Lemma byte_lxor (x y : Z) : byte x -> byte y -> byte (Z.lxor x y).
Proof.
  intros Hx Hy. rewrite <- (u8_id x Hx), <- (u8_id y Hy), <- u8_lxor. apply u8_byte.
Qed.

Lemma land_0x80 (x : Z) : Z.land x 0x80 = if Z.testbit x 7 then 0x80 else 0.
Proof.
  apply Z.bits_inj'. intros n Hn. rewrite Z.land_spec.
  change 0x80 with (2 ^ 7). rewrite Z.pow2_bits_eqb by lia.
  destruct (Z.eqb_spec 7 n) as [<- | Hne].
  - destruct (Z.testbit x 7); [now rewrite Z.pow2_bits_true by lia | reflexivity].
  - rewrite andb_false_r.
    destruct (Z.testbit x 7); [now rewrite Z.pow2_bits_false by lia | now rewrite Z.bits_0].
Qed.

(** [xtime] is the shift, XORed with the reduction constant when bit 7
    of the argument is set; nothing is truncated. *)
Lemma xtime_alt (x : Z) :
  xtime x = Z.lxor (Z.shiftl x 1) (if Z.testbit x 7 then 0x1b else 0).
Proof.
  unfold xtime. rewrite land_0x80.
  destruct (Z.testbit x 7); cbn [negb Z.eqb]; [reflexivity | now rewrite Z.lxor_0_r].
Qed.

Lemma xtime_lxor (x y : Z) : xtime (Z.lxor x y) = Z.lxor (xtime x) (xtime y).
Proof.
  rewrite !xtime_alt, Z.shiftl_lxor, Z.lxor_spec.
  apply Z.bits_inj'. intros n _. rewrite !Z.lxor_spec.
  destruct (Z.testbit x 7), (Z.testbit y 7); cbn [xorb];
    rewrite ?Z.bits_0; btauto.
Qed.

Lemma testbit_u8_7 (x : Z) : Z.testbit (u8 x) 7 = Z.testbit x 7.
Proof. unfold u8. change 256 with (2 ^ 8). now rewrite Z.mod_pow2_bits_low by lia. Qed.

Lemma u8_xtime (x : Z) : u8 (xtime (u8 x)) = u8 (xtime x).
Proof.
  rewrite !xtime_alt, !u8_lxor, testbit_u8_7. f_equal.
  unfold u8. rewrite !Z.shiftl_mul_pow2 by lia.
  now rewrite Z.mul_mod_idemp_l by lia.
Qed.

#[local] Instance eqm_equiv : Equivalence eqm.
Proof.
  unfold eqm. split.
  - intros x. reflexivity.
  - intros x y H. now symmetry.
  - intros x y z H1 H2. now transitivity (u8 y).
Qed.

#[local] Instance lxor_eqm : Proper (eqm ==> eqm ==> eqm) Z.lxor.
Proof. unfold eqm. intros x x' Hx y y' Hy. now rewrite !u8_lxor, Hx, Hy. Qed.

#[local] Instance xtime_eqm : Proper (eqm ==> eqm) xtime.
Proof. unfold eqm. intros x x' Hx. now rewrite <- u8_xtime, Hx, u8_xtime. Qed.

Lemma u8_eqm (x : Z) : eqm (u8 x) x.
Proof. apply u8_u8. Qed.

Lemma eq_eqm (x y : Z) : x = y -> eqm x y.
Proof. now intros ->. Qed.

Lemma eqm_byte (x a : Z) : byte a -> eqm x a -> u8 x = a.
Proof. unfold eqm. intros Ha ->. now apply u8_id. Qed.

(** Equations between XOR combinations: distribute [xtime], then compare
    bit by bit. *)
Ltac xor_solve :=
  rewrite ?xtime_lxor;
  apply Z.bits_inj'; intros ? _; rewrite ?Z.lxor_spec; btauto.

(** ** States of sixteen bytes *)

Lemma bytes_cons (x : Z) (a : list Z) : bytes (x :: a) <-> byte x /\ bytes a.
Proof. unfold bytes. apply Forall_cons. Qed.

(** Name the sixteen entries of a state and keep their ranges. *)
Ltac state16 s Hlen Hb :=
  do 16 (destruct s as [| ? s]; [discriminate Hlen |]);
  destruct s; [clear Hlen | discriminate Hlen];
  repeat (apply bytes_cons in Hb; destruct Hb as [? Hb]); clear Hb.

Ltac run_state :=
  cbv [mixColumns invMixColumns mixColumns_step invMixColumns_step
       shiftRows invShiftRows subBytes invSubBytes addRoundKey xor_into
       for_range fold_left seq wr rd
       lookup list_lookup insert list_insert default from_option id
       Nat.add Nat.mul].

Ltac entries := repeat match goal with |- _ :: _ = _ :: _ => f_equal end.

(** An entry that was stored, read back and combined again equals a byte
    of the original state: drop the truncations, then compare the XOR
    combinations. *)
Ltac entry_solve :=
  apply eqm_byte; [assumption | rewrite ?u8_eqm; apply eq_eqm; xor_solve].

Lemma byte_cases (P : Z -> bool) :
  forallb P (map Z.of_nat (seq 0 256)) = true -> forall x, byte x -> P x = true.
Proof.
  intros Hall x [Hlo Hhi]. rewrite forallb_forall in Hall. apply Hall.
  apply in_map_iff. exists (Z.to_nat x). split; [lia |].
  apply in_seq. lia.
Qed.

(** Arguments of [xtime] in the source are below [2^10] (a byte XORed
    with at most two results of [xtime]), so the 32-bit shift of
    JavaScript never wraps. *)
Lemma xtime_small (x : Z) : 0 <= x < 1024 -> 0 <= xtime x < 2048.
Proof.
  intros [Hlo Hhi].
  assert (forallb (fun x => (0 <=? xtime x) && (xtime x <? 2048))
            (map Z.of_nat (seq 0 1024)) = true) as Hall by (vm_compute; reflexivity).
  rewrite forallb_forall in Hall.
  specialize (Hall x). cbv beta in Hall.
  assert (In x (map Z.of_nat (seq 0 1024))) as Hin.
  { apply in_map_iff. exists (Z.to_nat x). split; [lia | apply in_seq; lia]. }
  apply Hall in Hin. lia.
Qed.

Lemma sbox_byte (x : Z) : byte x -> byte (sbox x).
Proof.
  intros Hx.
  pose proof (byte_cases (fun x => (0 <=? sbox x) && (sbox x <? 256)) eq_refl x Hx) as H.
  cbv beta in H. unfold byte. lia.
Qed.

Lemma rsbox_byte (x : Z) : byte x -> byte (rsbox x).
Proof.
  intros Hx.
  pose proof (byte_cases (fun x => (0 <=? rsbox x) && (rsbox x <? 256)) eq_refl x Hx) as H.
  cbv beta in H. unfold byte. lia.
Qed.

Lemma rsbox_sbox (x : Z) : byte x -> rsbox (sbox x) = x.
Proof.
  intros Hx. apply Z.eqb_eq.
  exact (byte_cases (fun x => rsbox (sbox x) =? x) eq_refl x Hx).
Qed.

Lemma sbox_rsbox (x : Z) : byte x -> sbox (rsbox x) = x.
Proof.
  intros Hx. apply Z.eqb_eq.
  exact (byte_cases (fun x => sbox (rsbox x) =? x) eq_refl x Hx).
Qed.

Lemma invShiftRows_shiftRows (s : list Z) :
  shaped 16 s -> invShiftRows (shiftRows s) = s.
Proof.
  intros [Hlen Hb]. state16 s Hlen Hb. run_state.
  entries; rewrite u8_u8; now apply u8_id.
Qed.

Lemma shiftRows_invShiftRows (s : list Z) :
  shaped 16 s -> shiftRows (invShiftRows s) = s.
Proof.
  intros [Hlen Hb]. state16 s Hlen Hb. run_state.
  entries; rewrite u8_u8; now apply u8_id.
Qed.

Lemma invSubBytes_subBytes (s : list Z) :
  shaped 16 s -> invSubBytes (subBytes s) = s.
Proof.
  intros [Hlen Hb]. state16 s Hlen Hb. run_state.
  entries; rewrite (u8_id (sbox _)) by now apply sbox_byte.
  all: rewrite rsbox_sbox by assumption; now apply u8_id.
Qed.

Lemma addRoundKey_addRoundKey (key s : list Z) (round : nat) :
  shaped 16 s -> addRoundKey key (addRoundKey key s round) round = s.
Proof.
  intros [Hlen Hb]. unfold addRoundKey.
  change (fun (i : nat) (state : list Z) =>
            wr state i (Z.lxor (rd state i) (rd key (round * 16 + i))))
    with (fun (i : nat) (state : list Z) =>
            wr state i (Z.lxor (rd state i) ((fun j => rd key (round * 16 + j)) i))).
  generalize (fun j => rd key (round * 16 + j)). intros k.
  state16 s Hlen Hb. run_state. entries; entry_solve.
Qed.

Lemma invMixColumns_mixColumns (s : list Z) :
  shaped 16 s -> invMixColumns (mixColumns s) = s.
Proof.
  intros [Hlen Hb]. state16 s Hlen Hb. run_state. entries; entry_solve.
Qed.

Lemma mixColumns_invMixColumns (s : list Z) :
  shaped 16 s -> mixColumns (invMixColumns s) = s.
Proof.
  intros [Hlen Hb]. state16 s Hlen Hb. run_state. entries; entry_solve.
Qed.

(** ** Shape of the state through the transforms *)

Lemma wr_length (a : list Z) (i : nat) (v : Z) : length (wr a i v) = length a.
Proof. apply length_insert. Qed.

Lemma wr_bytes (a : list Z) (i : nat) (v : Z) : bytes a -> bytes (wr a i v).
Proof. intros Ha. apply Forall_insert; [exact Ha | apply u8_byte]. Qed.

Lemma for_range_inv {St : Type} (P : St -> Prop) (lo n : nat) (body : nat -> St -> St) (s : St) :
  (forall i s, P s -> P (body i s)) -> P s -> P (for_range lo n body s).
Proof.
  intros Hbody. unfold for_range. revert s.
  induction (seq lo n) as [| i l IH]; intros s Hs; cbn [fold_left]; auto.
Qed.

(** Arrays of [n] bytes. *)
Lemma shaped_wr (n : nat) (a : list Z) (i : nat) (v : Z) :
  shaped n a -> shaped n (wr a i v).
Proof. intros [Hl Hb]. split; [now rewrite wr_length | now apply wr_bytes]. Qed.

Ltac shape_loop := apply for_range_inv; [intros; apply shaped_wr; assumption | assumption].

Lemma shaped_subBytes n s : shaped n s -> shaped n (subBytes s).
Proof. intros H. unfold subBytes. shape_loop. Qed.

Lemma shaped_invSubBytes n s : shaped n s -> shaped n (invSubBytes s).
Proof. intros H. unfold invSubBytes. shape_loop. Qed.

Lemma shaped_addRoundKey n key s round : shaped n s -> shaped n (addRoundKey key s round).
Proof. intros H. unfold addRoundKey. shape_loop. Qed.

Lemma shaped_xor_into n block prev : shaped n block -> shaped n (xor_into block prev).
Proof. intros H. unfold xor_into. shape_loop. Qed.

Ltac shaped16 :=
  split; [reflexivity | unfold bytes; repeat (constructor; [first [apply u8_byte | assumption] |]); constructor].

Lemma shaped_shiftRows s : shaped 16 s -> shaped 16 (shiftRows s).
Proof. intros [Hl Hb]. state16 s Hl Hb. run_state. shaped16. Qed.

Lemma shaped_invShiftRows s : shaped 16 s -> shaped 16 (invShiftRows s).
Proof. intros [Hl Hb]. state16 s Hl Hb. run_state. shaped16. Qed.

Lemma shaped_mixColumns s : shaped 16 s -> shaped 16 (mixColumns s).
Proof. intros [Hl Hb]. state16 s Hl Hb. run_state. shaped16. Qed.

Lemma shaped_invMixColumns s : shaped 16 s -> shaped 16 (invMixColumns s).
Proof. intros [Hl Hb]. state16 s Hl Hb. run_state. shaped16. Qed.

Create HintDb shape.

#[local] Hint Resolve shaped_subBytes shaped_invSubBytes shaped_addRoundKey
  shaped_shiftRows shaped_invShiftRows shaped_mixColumns shaped_invMixColumns
  shaped_xor_into : shape.

Lemma shaped_encrypt_round key i s : shaped 16 s -> shaped 16 (encrypt_round key i s).
Proof. intros H. unfold encrypt_round. auto with shape. Qed.

Lemma shaped_decrypt_round key i s : shaped 16 s -> shaped 16 (decrypt_round key i s).
Proof. intros H. unfold decrypt_round. auto with shape. Qed.

Lemma fold_left_inv {A : Type} (P : A -> Prop) (step : nat -> A -> A) (l : list nat) (s : A) :
  (forall i s, P s -> P (step i s)) ->
  P s -> P (fold_left (fun s i => step i s) l s).
Proof.
  intros Hstep. revert s. induction l as [| i l IH]; intros s Hs; cbn [fold_left]; auto.
Qed.

Lemma shaped_encryptBlock key data : shaped 16 data -> shaped 16 (encryptBlock key data).
Proof.
  intros H. unfold encryptBlock, for_range. cbv zeta.
  apply shaped_addRoundKey, shaped_shiftRows, shaped_subBytes.
  apply (fold_left_inv (shaped 16) (encrypt_round key)); [apply shaped_encrypt_round |].
  now apply shaped_addRoundKey.
Qed.

Lemma shaped_decryptBlock key data : shaped 16 data -> shaped 16 (decryptBlock key data).
Proof.
  intros H. unfold decryptBlock. cbv zeta.
  apply shaped_addRoundKey, shaped_invSubBytes, shaped_invShiftRows.
  apply (fold_left_inv (shaped 16) (decrypt_round key)); [apply shaped_decrypt_round |].
  now apply shaped_addRoundKey.
Qed.

(** A loop that runs backwards over the rounds of a forward loop undoes
    it when each backward step undoes the matching forward step (seen
    through [F], the part of the next round already applied). *)
Lemma fold_left_undo {A : Type} (P : A -> Prop) (fwd bwd : nat -> A -> A) (F : A -> A) :
  (forall i s, P s -> P (fwd i s)) ->
  (forall i s, P s -> bwd i (F (fwd i s)) = F s) ->
  forall (l : list nat) (s : A), P s ->
    fold_left (fun s i => bwd i s) (rev l) (F (fold_left (fun s i => fwd i s) l s)) = F s.
Proof.
  intros Hfwd Hbwd l. induction l as [| i l IH]; intros s Hs; [reflexivity |].
  cbn [fold_left rev]. rewrite fold_left_app. cbn [fold_left].
  rewrite IH by now apply Hfwd. now apply Hbwd.
Qed.

(** ** One block: [decryptBlock] undoes [encryptBlock] *)

Section BlockRoundTrip.
Variable key : list Z.

Local Ltac st := auto 10 with shape.

Lemma decrypt_round_undoes (i : nat) (s : list Z) :
  shaped 16 s ->
  decrypt_round key i (shiftRows (subBytes (encrypt_round key i s)))
  = shiftRows (subBytes s).
Proof.
  intros Hs. unfold decrypt_round, encrypt_round. cbv zeta.
  rewrite invShiftRows_shiftRows by st.
  rewrite invSubBytes_subBytes by st.
  rewrite addRoundKey_addRoundKey by st.
  apply invMixColumns_mixColumns; st.
Qed.

Lemma decrypt_rounds_undo (l : list nat) (s : list Z) :
  shaped 16 s ->
  fold_left (fun s i => decrypt_round key i s) (rev l)
    (shiftRows (subBytes (fold_left (fun s i => encrypt_round key i s) l s)))
  = shiftRows (subBytes s).
Proof.
  exact (fold_left_undo (shaped 16) (encrypt_round key) (decrypt_round key)
           (fun s => shiftRows (subBytes s))
           (shaped_encrypt_round key) decrypt_round_undoes l s).
Qed.

Lemma decryptBlock_encryptBlock (data : list Z) :
  shaped 16 data -> decryptBlock key (encryptBlock key data) = data.
Proof.
  intros Hs. unfold decryptBlock, encryptBlock, for_range. cbv zeta.
  set (nr := (length key / 16 - 1)%nat).
  assert (shaped 16 (addRoundKey key data 0)) as H0 by st.
  assert (shaped 16 (fold_left (fun s i => encrypt_round key i s) (seq 1 (nr - 1))
                       (addRoundKey key data 0))) as H1
    by (apply (fold_left_inv (shaped 16) (encrypt_round key)); [apply shaped_encrypt_round | exact H0]).
  rewrite addRoundKey_addRoundKey by st.
  rewrite decrypt_rounds_undo by exact H0.
  rewrite invShiftRows_shiftRows by st.
  rewrite invSubBytes_subBytes by exact H0.
  now apply addRoundKey_addRoundKey.
Qed.
End BlockRoundTrip.

Lemma xor_into_xor_into (block prev : list Z) :
  shaped 16 block -> xor_into (xor_into block prev) prev = block.
Proof.
  intros [Hlen Hb]. unfold xor_into.
  change (fun (j : nat) (block : list Z) => wr block j (Z.lxor (rd block j) (rd prev j)))
    with (fun (j : nat) (block : list Z) =>
            wr block j (Z.lxor (rd block j) ((fun j => rd prev j) j))).
  generalize (fun j => rd prev j). intros k.
  state16 block Hlen Hb. run_state. entries; entry_solve.
Qed.

Lemma subBytes_invSubBytes (s : list Z) :
  shaped 16 s -> subBytes (invSubBytes s) = s.
Proof.
  intros [Hlen Hb]. state16 s Hlen Hb. run_state.
  entries; rewrite (u8_id (rsbox _)) by now apply rsbox_byte.
  all: rewrite sbox_rsbox by assumption; now apply u8_id.
Qed.

(** ** One block: [encryptBlock] undoes [decryptBlock] *)

Section BlockRoundTripBack.
Variable key : list Z.

Local Ltac st := auto 10 with shape.

Lemma encrypt_round_undoes (i : nat) (s : list Z) :
  shaped 16 s ->
  encrypt_round key i (invSubBytes (invShiftRows (decrypt_round key i s)))
  = invSubBytes (invShiftRows s).
Proof.
  intros Hs. unfold decrypt_round, encrypt_round. cbv zeta.
  rewrite subBytes_invSubBytes by st.
  rewrite shiftRows_invShiftRows by st.
  rewrite mixColumns_invMixColumns by st.
  apply addRoundKey_addRoundKey; st.
Qed.

Lemma encrypt_rounds_undo (l : list nat) (s : list Z) :
  shaped 16 s ->
  fold_left (fun s i => encrypt_round key i s) (rev l)
    (invSubBytes (invShiftRows (fold_left (fun s i => decrypt_round key i s) l s)))
  = invSubBytes (invShiftRows s).
Proof.
  exact (fold_left_undo (shaped 16) (decrypt_round key) (encrypt_round key)
           (fun s => invSubBytes (invShiftRows s))
           (shaped_decrypt_round key) encrypt_round_undoes l s).
Qed.

Lemma encryptBlock_decryptBlock (data : list Z) :
  shaped 16 data -> encryptBlock key (decryptBlock key data) = data.
Proof.
  intros Hs. unfold decryptBlock, encryptBlock, for_range. cbv zeta.
  set (nr := (length key / 16 - 1)%nat).
  assert (shaped 16 (addRoundKey key data nr)) as H0 by st.
  assert (shaped 16 (fold_left (fun s i => decrypt_round key i s) (rev (seq 1 (nr - 1)))
                       (addRoundKey key data nr))) as H1
    by (apply (fold_left_inv (shaped 16) (decrypt_round key));
        [apply shaped_decrypt_round | exact H0]).
  rewrite addRoundKey_addRoundKey by st.
  rewrite <- (rev_involutive (seq 1 (nr - 1))) at 1.
  rewrite encrypt_rounds_undo by exact H0.
  rewrite subBytes_invSubBytes by st.
  rewrite shiftRows_invShiftRows by exact H0.
  now apply addRoundKey_addRoundKey.
Qed.
End BlockRoundTripBack.

Lemma lxor_cancel_l (a x y : Z) : Z.lxor a x = Z.lxor a y -> x = y.
Proof.
  intros H. apply (f_equal (Z.lxor a)) in H.
  now rewrite <- !Z.lxor_assoc, Z.lxor_nilpotent, !Z.lxor_0_l in H.
Qed.

Lemma xor_into_cancel (b v v' : list Z) :
  shaped 16 b -> shaped 16 v -> shaped 16 v' ->
  xor_into b v = xor_into b v' -> v = v'.
Proof.
  intros [Hbl Hbb] [Hvl Hvb] [Hvl' Hvb'] Heq.
  state16 b Hbl Hbb. state16 v Hvl Hvb. state16 v' Hvl' Hvb'.
  cbv [xor_into for_range fold_left seq wr rd
       lookup list_lookup insert list_insert default from_option id
       Nat.add Nat.mul] in Heq.
  rewrite !u8_id in Heq by (apply byte_lxor; assumption).
  injection Heq; intros.
  repeat match goal with
         | E : Z.lxor _ _ = Z.lxor _ _ |- _ => apply lxor_cancel_l in E; subst
         end.
  reflexivity.
Qed.

#[local] Opaque encryptBlock decryptBlock xor_into.

(** ** Arrays of whole blocks *)

Lemma offsets_blocks (n : nat) :
  offsets (16 * n) = map (fun k => (16 * k)%nat) (seq 0 n).
Proof.
  unfold offsets. f_equal. f_equal.
  symmetry. apply (Nat.div_unique _ 16 n 15); lia.
Qed.

Lemma subarray_app (pre rest : list Z) (i n : nat) :
  length pre = i -> subarray (pre ++ rest) i (i + n) = take n rest.
Proof.
  intros <-. unfold subarray.
  replace (length pre + n - length pre)%nat with n by lia.
  now rewrite drop_app_length.
Qed.

Lemma set_at_app (pre old rest src : list Z) (i : nat) :
  length pre = i -> length old = length src ->
  set_at (pre ++ old ++ rest) src i = pre ++ src ++ rest.
Proof.
  intros <- Hlen. unfold set_at.
  rewrite take_app_length. f_equal. f_equal.
  rewrite drop_app_add, <- Hlen. apply drop_app_length.
Qed.

Lemma zeros_succ (m : nat) : zeros (16 * S m) = zeros 16 ++ zeros (16 * m).
Proof.
  unfold zeros. replace (16 * S m)%nat with (16 + 16 * m)%nat by lia.
  apply replicate_add.
Qed.

Lemma shaped_take (m : nat) (data : list Z) :
  shaped (16 * S m) data -> shaped 16 (take 16 data).
Proof.
  intros [Hl Hb]. split; [rewrite length_take; lia | now apply Forall_take].
Qed.

Lemma shaped_drop (m : nat) (data : list Z) :
  shaped (16 * S m) data -> shaped (16 * m) (drop 16 data).
Proof.
  intros [Hl Hb]. split; [rewrite length_drop; lia | now apply Forall_drop].
Qed.

Lemma shaped_app (n m : nat) (a b : list Z) :
  shaped n a -> shaped m b -> shaped (n + m) (a ++ b).
Proof.
  intros [Hla Hba] [Hlb Hbb]. split; [rewrite length_app; lia | now apply Forall_app].
Qed.

Lemma shaped_nil : shaped 0 [].
Proof. split; [reflexivity | constructor]. Qed.

Lemma shaped_blocks_succ (m : nat) (a b : list Z) :
  shaped 16 a -> shaped (16 * m) b -> shaped (16 * S m) (a ++ b).
Proof.
  intros Ha Hb. replace (16 * S m)%nat with (16 + 16 * m)%nat by lia.
  now apply shaped_app.
Qed.

(** ** The loops, block by block *)

Section Loops.
Variable f : list Z -> list Z.
Hypothesis f_shaped : forall b, shaped 16 b -> shaped 16 (f b).

Lemma ecb_loop_from (m k : nat) (dpre drest pre : list Z) :
  length dpre = (16 * k)%nat -> shaped (16 * m) drest -> length pre = (16 * k)%nat ->
  fold_left (ecb_step f (dpre ++ drest)) (map (fun k => (16 * k)%nat) (seq k m))
    (pre ++ zeros (16 * m))
  = pre ++ ecb_blocks m f drest.
Proof.
  revert k dpre drest pre.
  induction m as [| m IH]; intros k dpre drest pre Hd Hr Hp; [reflexivity |].
  cbn [seq map fold_left ecb_blocks]. unfold ecb_step at 2.
  pose proof (f_shaped _ (shaped_take _ _ Hr)) as [Hfl Hfb].
  rewrite subarray_app by exact Hd.
  rewrite zeros_succ, set_at_app
    by (try exact Hp; rewrite Hfl; apply length_replicate).
  rewrite <- (take_drop 16 drest) at 1.
  rewrite !app_assoc.
  rewrite (IH (S k)).
  - reflexivity.
  - rewrite length_app, length_take. destruct Hr as [Hr _]. lia.
  - now apply shaped_drop.
  - rewrite length_app. lia.
Qed.

Lemma ecb_loop (n : nat) (data : list Z) :
  shaped (16 * n) data ->
  fold_left (ecb_step f data) (offsets (length data)) (zeros (length data))
  = ecb_blocks n f data.
Proof.
  intros Hs. destruct Hs as [Hl Hb]. rewrite Hl, offsets_blocks.
  apply (ecb_loop_from n 0 [] data []); [reflexivity | now split | reflexivity].
Qed.

Lemma shaped_ecb_blocks (n : nat) (data : list Z) :
  shaped (16 * n) data -> shaped (16 * n) (ecb_blocks n f data).
Proof.
  revert data. induction n as [| n IH]; intros data Hs; [apply shaped_nil |].
  cbn [ecb_blocks]. apply shaped_blocks_succ.
  - eapply f_shaped, shaped_take, Hs.
  - eapply IH, shaped_drop, Hs.
Qed.

Variable g : list Z -> list Z.
Hypothesis g_f : forall b, shaped 16 b -> g (f b) = b.

Lemma ecb_blocks_undo (n : nat) (data : list Z) :
  shaped (16 * n) data -> ecb_blocks n g (ecb_blocks n f data) = data.
Proof.
  revert data. induction n as [| n IH]; intros data Hs.
  - destruct Hs as [Hl _]. destruct data; [reflexivity | discriminate Hl].
  - cbn [ecb_blocks].
    pose proof (f_shaped _ (shaped_take _ _ Hs)) as [Hfl Hfb].
    rewrite take_app_length', drop_app_length' by (symmetry; exact Hfl).
    rewrite g_f by (eapply shaped_take, Hs).
    rewrite IH by (eapply shaped_drop, Hs).
    apply take_drop.
Qed.
End Loops.

(** The bodies of the CBC loops, as equations. *)
Lemma cbc_encrypt_step_eq (key data encrypted prev : list Z) (i : nat) :
  cbc_encrypt_step key (data, encrypted, prev) i
  = (set_at data (xor_into (subarray data i (i + 16)) prev) i,
     set_at encrypted (encryptBlock key (xor_into (subarray data i (i + 16)) prev)) i,
     encryptBlock key (xor_into (subarray data i (i + 16)) prev)).
Proof. reflexivity. Qed.

Lemma cbc_decrypt_step_eq (key data decrypted prev : list Z) (i : nat) :
  cbc_decrypt_step key data (decrypted, prev) i
  = (set_at decrypted (xor_into (decryptBlock key (subarray data i (i + 16))) prev) i,
     subarray data i (i + 16)).
Proof. reflexivity. Qed.

Section CbcLoops.
Variables E D : list Z -> list Z.
Hypothesis E_shaped : forall b, shaped 16 b -> shaped 16 (E b).
Hypothesis D_shaped : forall b, shaped 16 b -> shaped 16 (D b).

Variable enc_step : list Z * list Z * list Z -> nat -> list Z * list Z * list Z.
Hypothesis enc_step_eq : forall data encrypted prev i,
  enc_step (data, encrypted, prev) i
  = (set_at data (xor_into (subarray data i (i + 16)) prev) i,
     set_at encrypted (E (xor_into (subarray data i (i + 16)) prev)) i,
     E (xor_into (subarray data i (i + 16)) prev)).

Variable dec_step : list Z -> list Z * list Z -> nat -> list Z * list Z.
Hypothesis dec_step_eq : forall data decrypted prev i,
  dec_step data (decrypted, prev) i
  = (set_at decrypted (xor_into (D (subarray data i (i + 16))) prev) i,
     subarray data i (i + 16)).

Lemma cbc_encrypt_loop_from (m k : nat) (dpre drest pre prev : list Z) :
  length dpre = (16 * k)%nat -> shaped (16 * m) drest -> length pre = (16 * k)%nat ->
  snd (fst (fold_left enc_step (map (fun k => (16 * k)%nat) (seq k m))
              (dpre ++ drest, pre ++ zeros (16 * m), prev)))
  = pre ++ cbc_encrypt_blocks m E prev drest.
Proof.
  revert k dpre drest pre prev.
  induction m as [| m IH]; intros k dpre drest pre prev Hd Hr Hp; [reflexivity |].
  cbn [seq map fold_left cbc_encrypt_blocks]. rewrite enc_step_eq.
  rewrite subarray_app by exact Hd.
  pose proof (shaped_xor_into 16 _ prev (shaped_take _ _ Hr)) as Hx.
  pose proof (E_shaped _ Hx) as He.
  destruct Hx as [Hxl _]. destruct He as [Hel _].
  destruct Hr as [Hrl Hrb].
  rewrite <- (take_drop 16 drest) at 1.
  rewrite set_at_app
    by (try exact Hd; rewrite Hxl, length_take; lia).
  rewrite zeros_succ, set_at_app
    by (try exact Hp; rewrite Hel; apply length_replicate).
  rewrite !app_assoc.
  rewrite (IH (S k)).
  - reflexivity.
  - rewrite length_app. lia.
  - apply (shaped_drop m). now split.
  - rewrite length_app. lia.
Qed.

Lemma cbc_encrypt_loop (n : nat) (data prev : list Z) :
  shaped (16 * n) data ->
  snd (fst (fold_left enc_step (offsets (length data))
              (data, zeros (length data), prev)))
  = cbc_encrypt_blocks n E prev data.
Proof.
  intros Hs. destruct Hs as [Hl Hb]. rewrite Hl, offsets_blocks.
  apply (cbc_encrypt_loop_from n 0 [] data []); [reflexivity | now split | reflexivity].
Qed.

Lemma cbc_decrypt_loop_from (m k : nat) (dpre drest pre prev : list Z) :
  length dpre = (16 * k)%nat -> shaped (16 * m) drest -> length pre = (16 * k)%nat ->
  fst (fold_left (dec_step (dpre ++ drest))
         (map (fun k => (16 * k)%nat) (seq k m)) (pre ++ zeros (16 * m), prev))
  = pre ++ cbc_decrypt_blocks m D prev drest.
Proof.
  revert k dpre drest pre prev.
  induction m as [| m IH]; intros k dpre drest pre prev Hd Hr Hp; [reflexivity |].
  cbn [seq map fold_left cbc_decrypt_blocks]. rewrite dec_step_eq.
  rewrite subarray_app by exact Hd.
  pose proof (D_shaped _ (shaped_take _ _ Hr)) as Hx.
  apply (shaped_xor_into 16 _ prev) in Hx. destruct Hx as [Hxl _].
  destruct Hr as [Hrl Hrb].
  rewrite zeros_succ, set_at_app
    by (try exact Hp; rewrite Hxl; apply length_replicate).
  rewrite <- (take_drop 16 drest) at 1.
  rewrite !app_assoc.
  rewrite (IH (S k)).
  - reflexivity.
  - rewrite length_app, length_take. lia.
  - apply (shaped_drop m). now split.
  - rewrite length_app. lia.
Qed.

Lemma cbc_decrypt_loop (n : nat) (data prev : list Z) :
  shaped (16 * n) data ->
  fst (fold_left (dec_step data) (offsets (length data)) (zeros (length data), prev))
  = cbc_decrypt_blocks n D prev data.
Proof.
  intros Hs. destruct Hs as [Hl Hb]. rewrite Hl, offsets_blocks.
  apply (cbc_decrypt_loop_from n 0 [] data []); [reflexivity | now split | reflexivity].
Qed.

Lemma shaped_cbc_encrypt_blocks (n : nat) (prev data : list Z) :
  shaped (16 * n) data -> shaped (16 * n) (cbc_encrypt_blocks n E prev data).
Proof.
  revert prev data. induction n as [| n IH]; intros prev data Hs; [apply shaped_nil |].
  cbn [cbc_encrypt_blocks]. apply shaped_blocks_succ.
  - eapply E_shaped, shaped_xor_into, shaped_take, Hs.
  - eapply IH, shaped_drop, Hs.
Qed.

Hypothesis D_E : forall b, shaped 16 b -> D (E b) = b.

Lemma cbc_blocks_undo (n : nat) (prev data : list Z) :
  shaped (16 * n) data ->
  cbc_decrypt_blocks n D prev (cbc_encrypt_blocks n E prev data) = data.
Proof.
  revert prev data. induction n as [| n IH]; intros prev data Hs.
  - destruct Hs as [Hl _]. destruct data; [reflexivity | discriminate Hl].
  - cbn [cbc_encrypt_blocks cbc_decrypt_blocks].
    pose proof (shaped_xor_into 16 _ prev (shaped_take _ _ Hs)) as Hx.
    pose proof (E_shaped _ Hx) as [Hel _].
    rewrite take_app_length', drop_app_length' by (symmetry; exact Hel).
    rewrite D_E by exact Hx.
    rewrite xor_into_xor_into by (eapply shaped_take, Hs).
    rewrite IH by (eapply shaped_drop, Hs).
    apply take_drop.
Qed.
End CbcLoops.

(** ** Padding *)

Lemma pad_eq (data : list Z) (padding : Padding) :
  exists n q : nat,
    (1 <= n <= 16)%nat /\ (length data + n = 16 * q)%nat /\
    pad data padding 16 = data ++ replicate n (Z.of_nat n).
Proof.
  unfold pad. cbv zeta.
  pose proof (Nat.mod_upper_bound (length data) 16 ltac:(lia)) as Hlt.
  pose proof (Nat.div_mod_eq (length data) 16) as Hdm.
  set (n := (16 - length data mod 16)%nat) in *.
  exists n, (S (length data / 16)). split; [lia |]. split; [lia |].
  destruct (Nat.eqb_spec n 0) as [H0 | _]; [lia | reflexivity].
Qed.

Lemma shaped_pad (data : list Z) (padding : Padding) :
  bytes data -> exists q : nat, shaped (16 * q) (pad data padding 16).
Proof.
  intros Hb. destruct (pad_eq data padding) as (n & q & Hn & Hq & ->).
  exists q. split.
  - rewrite length_app, length_replicate. exact Hq.
  - apply Forall_app. split; [exact Hb |].
    apply Forall_replicate. unfold byte. lia.
Qed.

Lemma forallb_replicate (v : Z) (n : nat) : forallb (Z.eqb v) (replicate n v) = true.
Proof. induction n as [| n IH]; cbn; [reflexivity |]. now rewrite Z.eqb_refl. Qed.

Lemma unpad_pad (data : list Z) (padding : Padding) :
  unpad (pad data padding 16) padding 16 = ok data.
Proof.
  destruct (pad_eq data padding) as (n & q & Hn & Hq & ->).
  unfold unpad.
  assert (last (data ++ replicate n (Z.of_nat n)) = Some (Z.of_nat n)) as ->.
  { destruct n as [| n]; [lia |].
    rewrite replicate_S_end, app_assoc. apply last_snoc. }
  rewrite length_app, length_replicate, Nat2Z.id.
  replace (length data + n - n)%nat with (length data) by lia.
  rewrite drop_app_length, take_app_length, forallb_replicate.
  destruct (Z.eqb_spec (Z.of_nat n) 0) as [H0 | _]; [lia |].
  destruct (Z.ltb_spec (Z.of_nat 16) (Z.of_nat n)) as [H1 | _]; [lia |].
  destruct (Z.ltb_spec (Z.of_nat (length data + n)) (Z.of_nat n)) as [H2 | _]; [lia |].
  reflexivity.
Qed.

(** ** The message operations, block by block *)

Lemma triple_middle {A B C R : Type} (t : A * B * C) (F : B -> R) :
  (let '(_, e, _) := t in F e) = F (snd (fst t)).
Proof. now destruct t as [[a b] c]. Qed.

Lemma pair_first {A B R : Type} (t : A * B) (F : A -> R) :
  (let '(d, _) := t in F d) = F (fst t).
Proof. now destruct t as [a b]. Qed.

Lemma whole_blocks (n : nat) (data : list Z) :
  shaped (16 * n) data -> (length data mod 16 =? 0)%nat = true.
Proof.
  intros [Hl _]. rewrite Hl. apply Nat.eqb_eq.
  rewrite Nat.mul_comm. apply Nat.Div0.mod_mul.
Qed.

Lemma encrypt_ECB (this : AES) (p : list Z) (n : nat) :
  mode this = Mode_ECB -> shaped (16 * n) (pad p (padding this) 16) ->
  encrypt this p
  = (this, ok (ecb_blocks n (encryptBlock (key this)) (pad p (padding this) 16))).
Proof.
  intros Hm Hs. unfold encrypt. rewrite Hm. cbv zeta. cbn [Z.eqb Mode_ECB Pos.eqb].
  now rewrite (ecb_loop _ (shaped_encryptBlock (key this)) n).
Qed.

Lemma encrypt_CBC (this : AES) (p v : list Z) (n : nat) :
  mode this = Mode_CBC -> iv this = Some v -> shaped (16 * n) (pad p (padding this) 16) ->
  encrypt this p
  = (this, ok (cbc_encrypt_blocks n (encryptBlock (key this)) v (pad p (padding this) 16))).
Proof.
  intros Hm Hv Hs. unfold encrypt. rewrite Hm, Hv. cbv zeta.
  cbn [Z.eqb Mode_ECB Mode_CBC Pos.eqb].
  rewrite (triple_middle _ (fun e => (this, ok e))).
  now rewrite (cbc_encrypt_loop (encryptBlock (key this)) (shaped_encryptBlock (key this))
                 (cbc_encrypt_step (key this)) (cbc_encrypt_step_eq (key this)) n).
Qed.

Lemma decrypt_ECB (this : AES) (c : list Z) (n : nat) :
  mode this = Mode_ECB -> shaped (16 * n) c ->
  decrypt this c
  = (this, unpad (ecb_blocks n (decryptBlock (key this)) c) (padding this) 16).
Proof.
  intros Hm Hs. unfold decrypt. rewrite Hm, (whole_blocks n c Hs). cbv zeta.
  cbn [negb Z.eqb Mode_ECB Pos.eqb].
  now rewrite (ecb_loop _ (shaped_decryptBlock (key this)) n).
Qed.

Lemma decrypt_CBC (this : AES) (c v : list Z) (n : nat) :
  mode this = Mode_CBC -> iv this = Some v -> shaped (16 * n) c ->
  decrypt this c
  = (this, unpad (cbc_decrypt_blocks n (decryptBlock (key this)) v c) (padding this) 16).
Proof.
  intros Hm Hv Hs. unfold decrypt. rewrite Hm, Hv, (whole_blocks n c Hs). cbv zeta.
  cbn [negb Z.eqb Mode_ECB Mode_CBC Pos.eqb].
  rewrite (pair_first _ (fun d => (this, unpad d (padding this) 16))).
  now rewrite (cbc_decrypt_loop (decryptBlock (key this)) (shaped_decryptBlock (key this))
                 (cbc_decrypt_step (key this)) (cbc_decrypt_step_eq (key this)) n).
Qed.

(** ** Construction *)

Lemma new_AES_ok (k : list Z) (options : option AESOptions) (this : AES) :
  new_AES k options = ok this ->
  this = {| key := keyExpansion k; mode := option_mode options;
            iv := option_iv options; padding := option_padding options |} /\
  (length k = 16 \/ length k = 24 \/ length k = 32)%nat /\
  (mode this = Mode_CBC -> exists v, iv this = Some v /\ length v = 16%nat).
Proof.
  unfold new_AES. cbv zeta. intros H.
  destruct (check_iv (option_mode options) (option_iv options)) as [e | []] eqn:Hiv;
    [discriminate H |].
  destruct (existsb (Nat.eqb (length k)) [16; 24; 32]%nat) eqn:Hk; [| discriminate H].
  cbn [negb] in H. injection H as <-.
  cbn [key mode iv]. split; [reflexivity |]. split.
  - cbn [existsb] in Hk. rewrite !orb_true_iff, !Nat.eqb_eq in Hk.
    destruct Hk as [? | [? | [? | ?]]]; auto; discriminate.
  - intros Hm. unfold check_iv in Hiv. rewrite Hm in Hiv.
    cbn [Z.eqb Mode_CBC Pos.eqb] in Hiv.
    destruct (option_iv options) as [v0 |]; [| discriminate Hiv].
    exists v0. split; [reflexivity |].
    destruct (Nat.eqb_spec (length v0) 16); [assumption | discriminate Hiv].
Qed.

(** ** Round trip *)

(** C1: for a successfully constructed instance in a supported mode (ECB
    or CBC; the constructor has then checked the key length and, for CBC,
    the 16-byte IV), [encrypt] returns a ciphertext on every plaintext of
    bytes, and [decrypt] of that ciphertext returns the plaintext. *)
Theorem decrypt_encrypt (k : list Z) (options : option AESOptions) (this : AES) (p : list Z) :
  new_AES k options = ok this ->
  mode this = Mode_ECB \/ mode this = Mode_CBC ->
  bytes p ->
  exists c, encrypt this p = (this, ok c) /\ decrypt this c = (this, ok p).
Proof.
  intros Hnew Hmode Hp.
  destruct (shaped_pad p (padding this) Hp) as [n Hs].
  destruct Hmode as [Hm | Hm].
  - eexists. split; [apply (encrypt_ECB this p n Hm Hs) |].
    rewrite (decrypt_ECB this _ n Hm)
      by (apply shaped_ecb_blocks; [apply shaped_encryptBlock | exact Hs]).
    rewrite (ecb_blocks_undo _ (shaped_encryptBlock (key this)) _
               (decryptBlock_encryptBlock (key this)) n _ Hs).
    now rewrite unpad_pad.
  - destruct (new_AES_ok k options this Hnew) as (_ & _ & Hiv).
    destruct (Hiv Hm) as (v & Hv & _).
    eexists. split; [apply (encrypt_CBC this p v n Hm Hv Hs) |].
    rewrite (decrypt_CBC this _ v n Hm Hv)
      by (apply shaped_cbc_encrypt_blocks; [apply shaped_encryptBlock | exact Hs]).
    rewrite (cbc_blocks_undo _ _ (shaped_encryptBlock (key this))
               (decryptBlock_encryptBlock (key this)) n v _ Hs).
    now rewrite unpad_pad.
Qed.

(** ** The key schedule *)

Lemma rd_byte (a : list Z) (i : nat) : bytes a -> byte (rd a i).
Proof.
  intros Ha. unfold rd. destruct (a !! i) as [x |] eqn:Hx.
  - unfold bytes in Ha. rewrite Forall_lookup in Ha. exact (Ha i x Hx).
  - change (byte 0). unfold byte. lia.
Qed.

Lemma rcon_byte (i : nat) : byte (rcon i).
Proof.
  unfold rcon. do 11 (destruct i as [| i]; [cbn; unfold byte; lia |]).
  change (byte 0). unfold byte. lia.
Qed.

(** Reads and writes in the window that starts where [pre] ends. *)
Lemma rd_before (pre l : list Z) (j : nat) :
  (j < length pre)%nat -> rd (pre ++ l) j = rd pre j.
Proof. intros Hj. unfold rd. now rewrite lookup_app_l. Qed.

Lemma rd_window (pre l : list Z) (n j : nat) :
  length pre = n -> rd (pre ++ l) (n + j) = rd l j.
Proof.
  intros <-. unfold rd. rewrite lookup_app_r by lia.
  now replace (length pre + j - length pre)%nat with j by lia.
Qed.

Lemma rd_window0 (pre l : list Z) (n : nat) :
  length pre = n -> rd (pre ++ l) n = rd l 0.
Proof. intros H. rewrite <- (Nat.add_0_r n) at 1. now apply rd_window. Qed.

Lemma wr_window (pre l : list Z) (n j : nat) (v : Z) :
  length pre = n -> wr (pre ++ l) (n + j) v = pre ++ wr l j v.
Proof.
  intros <-. unfold wr. rewrite insert_app_r_alt by lia.
  now replace (length pre + j - length pre)%nat with j by lia.
Qed.

Lemma wr_window0 (pre l : list Z) (n : nat) (v : Z) :
  length pre = n -> wr (pre ++ l) n v = pre ++ wr l 0 v.
Proof. intros H. rewrite <- (Nat.add_0_r n) at 1. now apply wr_window. Qed.

Lemma rd_cons_0 (a : Z) (l : list Z) : rd (a :: l) 0 = a.
Proof. reflexivity. Qed.

Lemma rd_cons_S (a : Z) (l : list Z) (j : nat) : rd (a :: l) (S j) = rd l j.
Proof. reflexivity. Qed.

Lemma wr_cons_0 (a : Z) (l : list Z) (v : Z) : wr (a :: l) 0 v = u8 v :: l.
Proof. reflexivity. Qed.

Lemma wr_cons_S (a : Z) (l : list Z) (j : nat) (v : Z) :
  wr (a :: l) (S j) v = a :: wr l j v.
Proof. reflexivity. Qed.

(** Run reads and writes on [pre ++ a :: b :: c :: d :: post]. *)
Ltac window H :=
  repeat first
    [ rewrite (wr_window _ _ _ _ _ H) | rewrite (wr_window0 _ _ _ _ H)
    | rewrite (rd_window _ _ _ _ H) | rewrite (rd_window0 _ _ _ H)
    | rewrite wr_cons_S | rewrite wr_cons_0
    | rewrite rd_cons_S | rewrite rd_cons_0 ].

Section KeyScheduleStep.
Variables (nk i : nat) (pre post : list Z).
Hypothesis Hpre : length pre = (i * 4)%nat.
Hypothesis Hnk : (1 <= nk <= i)%nat.
Hypothesis Hb : bytes pre.

Lemma copy_previous_word_window (a b c d : Z) :
  copy_previous_word i (pre ++ a :: b :: c :: d :: post)
  = pre ++ word pre (i - 1) ++ post.
Proof.
  unfold copy_previous_word. cbv zeta. window Hpre.
  rewrite !rd_before by lia.
  rewrite !u8_id by now apply rd_byte.
  unfold word. cbn [app]. repeat (f_equal; try lia).
Qed.

Lemma rotWord_window (a b c d : Z) :
  byte a -> byte b -> byte c -> byte d ->
  rotWord (pre ++ a :: b :: c :: d :: post) i
  = pre ++ RotWord [a; b; c; d] ++ post.
Proof.
  intros Ha Hb' Hc Hd. unfold rotWord. cbv zeta. window Hpre.
  now rewrite !u8_id by assumption.
Qed.

Lemma subWord_window (a b c d : Z) :
  byte a -> byte b -> byte c -> byte d ->
  subWord (pre ++ a :: b :: c :: d :: post) i
  = pre ++ SubWord [a; b; c; d] ++ post.
Proof.
  intros Ha Hb' Hc Hd. unfold subWord, for_range. cbn [seq fold_left]. cbv zeta.
  rewrite Nat.add_0_r. window Hpre.
  now rewrite !u8_id by now apply sbox_byte.
Qed.

Lemma transform_word_window (a b c d : Z) :
  byte a -> byte b -> byte c -> byte d ->
  transform_word nk i (pre ++ a :: b :: c :: d :: post)
  = pre ++ schedule_T nk i [a; b; c; d] ++ post.
Proof.
  intros Ha Hb' Hc Hd. unfold transform_word, schedule_T. cbv zeta.
  destruct (i mod nk =? 0)%nat.
  - rewrite rotWord_window by assumption. cbn [RotWord app].
    rewrite subWord_window by assumption. cbn [SubWord map app].
    window Hpre. cbn [xor_word zip_with app].
    rewrite !Z.lxor_0_r.
    now rewrite u8_id by (apply byte_lxor; [now apply sbox_byte | apply rcon_byte]).
  - destruct ((6 <? nk)%nat && (i mod nk =? 4)%nat); [| reflexivity].
    now apply subWord_window.
Qed.

Lemma xor_earlier_word_window (a b c d : Z) :
  byte a -> byte b -> byte c -> byte d ->
  xor_earlier_word nk i (pre ++ a :: b :: c :: d :: post)
  = pre ++ xor_word (word pre (i - nk)) [a; b; c; d] ++ post.
Proof.
  intros Ha Hb' Hc Hd. unfold xor_earlier_word. cbv zeta. window Hpre.
  rewrite !rd_before by lia.
  unfold word. cbn [xor_word zip_with app].
  rewrite !u8_id by (apply byte_lxor; [assumption | now apply rd_byte]).
  rewrite (Z.lxor_comm a), (Z.lxor_comm b), (Z.lxor_comm c), (Z.lxor_comm d).
  repeat (f_equal; try lia).
Qed.
End KeyScheduleStep.

Lemma word_four (w : list Z) (i : nat) :
  bytes w -> exists a b c d, word w i = [a; b; c; d] /\ byte a /\ byte b /\ byte c /\ byte d.
Proof.
  intros Hw. unfold word. do 4 eexists. split; [reflexivity |].
  repeat split; now apply rd_byte.
Qed.

Lemma schedule_T_four (Nk i : nat) (a b c d : Z) :
  byte a -> byte b -> byte c -> byte d ->
  exists a' b' c' d',
    schedule_T Nk i [a; b; c; d] = [a'; b'; c'; d'] /\
    byte a' /\ byte b' /\ byte c' /\ byte d'.
Proof.
  intros Ha Hb Hc Hd. unfold schedule_T.
  destruct (i mod Nk =? 0)%nat; [| destruct ((6 <? Nk)%nat && (i mod Nk =? 4)%nat)].
  - cbn [RotWord SubWord map app xor_word zip_with]. do 4 eexists.
    split; [reflexivity |].
    repeat split; apply byte_lxor;
      first [now apply sbox_byte | apply rcon_byte | unfold byte; lia].
  - cbn [SubWord map]. do 4 eexists. split; [reflexivity |].
    repeat split; now apply sbox_byte.
  - do 4 eexists. split; [reflexivity |]. auto.
Qed.

Lemma next_word_four (Nk i : nat) (w : list Z) :
  bytes w ->
  exists a b c d,
    next_word Nk i w = [a; b; c; d] /\ byte a /\ byte b /\ byte c /\ byte d.
Proof.
  intros Hw. unfold next_word.
  destruct (word_four w (i - 1) Hw) as (a & b & c & d & -> & Ha & Hb & Hc & Hd).
  destruct (schedule_T_four Nk i a b c d Ha Hb Hc Hd)
    as (a' & b' & c' & d' & -> & Ha' & Hb' & Hc' & Hd').
  unfold word. cbn [xor_word zip_with]. do 4 eexists. split; [reflexivity |].
  repeat split; (apply byte_lxor; [now apply rd_byte | assumption]).
Qed.

Lemma keyExpansion_step_window (nk i : nat) (pre post : list Z) (a b c d : Z) :
  length pre = (i * 4)%nat -> (1 <= nk <= i)%nat -> bytes pre ->
  keyExpansion_step nk i (pre ++ a :: b :: c :: d :: post)
  = pre ++ next_word nk i pre ++ post.
Proof.
  intros Hpre Hnk Hb. unfold keyExpansion_step. cbv zeta.
  rewrite (copy_previous_word_window nk i pre post Hpre Hnk Hb).
  unfold next_word.
  destruct (word_four pre (i - 1) Hb) as (w0 & w1 & w2 & w3 & -> & H0 & H1 & H2 & H3).
  cbn [app]. rewrite (transform_word_window nk i pre post Hpre) by assumption.
  destruct (schedule_T_four nk i w0 w1 w2 w3 H0 H1 H2 H3)
    as (a' & b' & c' & d' & -> & Ha' & Hb' & Hc' & Hd').
  cbn [app]. now rewrite (xor_earlier_word_window nk i pre post Hpre Hnk Hb).
Qed.

Lemma bytes_app_next (Nk i : nat) (w : list Z) :
  bytes w -> bytes (w ++ next_word Nk i w).
Proof.
  intros Hw. destruct (next_word_four Nk i w Hw) as (a & b & c & d & -> & Ha & Hb & Hc & Hd).
  apply Forall_app. split; [exact Hw |]. unfold bytes. auto.
Qed.

Lemma length_app_next (Nk i : nat) (w : list Z) :
  bytes w -> length w = (i * 4)%nat -> length (w ++ next_word Nk i w) = (S i * 4)%nat.
Proof.
  intros Hw Hl. destruct (next_word_four Nk i w Hw) as (a & b & c & d & -> & _).
  rewrite length_app. cbn [length]. lia.
Qed.

(** The loop of [keyExpansion] appends one word per iteration. *)
Lemma keyExpansion_loop (nk m i : nat) (w : list Z) :
  length w = (i * 4)%nat -> (1 <= nk <= i)%nat -> bytes w ->
  fold_left (fun ks i => keyExpansion_step nk i ks) (seq i m) (w ++ zeros (4 * m))
  = expand_words nk i m w.
Proof.
  revert i w. induction m as [| m IH]; intros i w Hl Hnk Hb.
  - cbn [seq fold_left expand_words]. apply app_nil_r.
  - replace (4 * S m)%nat with (S (S (S (S (4 * m))))) by lia.
    cbn [seq fold_left expand_words zeros replicate].
    change (replicate (4 * m) 0) with (zeros (4 * m)).
    rewrite keyExpansion_step_window by assumption.
    rewrite app_assoc.
    apply IH; [now apply length_app_next | lia | now apply bytes_app_next].
Qed.

Lemma word_app (w rest : list Z) (j : nat) :
  (4 * j + 4 <= length w)%nat -> word (w ++ rest) j = word w j.
Proof. intros Hj. unfold word. now rewrite !rd_before by lia. Qed.

Lemma word_at_end (w rest : list Z) (i : nat) (a b c d : Z) :
  length w = (i * 4)%nat -> word (w ++ [a; b; c; d] ++ rest) i = [a; b; c; d].
Proof.
  intros Hl. unfold word.
  replace (4 * i)%nat with (i * 4)%nat by lia.
  cbn [app]. now window Hl.
Qed.

Lemma next_word_app (Nk j : nat) (w rest : list Z) :
  (1 <= Nk <= j)%nat -> (4 * j <= length w)%nat ->
  next_word Nk j (w ++ rest) = next_word Nk j w.
Proof. intros HNk Hj. unfold next_word. now rewrite !word_app by lia. Qed.

Lemma expand_words_prefix (Nk m i : nat) (w : list Z) :
  exists rest, expand_words Nk i m w = w ++ rest.
Proof.
  revert i w. induction m as [| m IH]; intros i w; cbn [expand_words].
  - exists []. now rewrite app_nil_r.
  - destruct (IH (S i) (w ++ next_word Nk i w)) as [rest ->].
    exists (next_word Nk i w ++ rest). now rewrite app_assoc.
Qed.

Lemma expand_words_length (Nk m i : nat) (w : list Z) :
  bytes w -> length w = (i * 4)%nat ->
  length (expand_words Nk i m w) = ((i + m) * 4)%nat.
Proof.
  revert i w. induction m as [| m IH]; intros i w Hb Hl; cbn [expand_words].
  - rewrite Hl. lia.
  - rewrite (IH (S i)); [lia | now apply bytes_app_next | now apply length_app_next].
Qed.

Lemma expand_words_recurrence (Nk m i : nat) (w : list Z) (j : nat) :
  bytes w -> length w = (i * 4)%nat -> (1 <= Nk <= i)%nat -> (i <= j < i + m)%nat ->
  word (expand_words Nk i m w) j = next_word Nk j (expand_words Nk i m w).
Proof.
  revert i w. induction m as [| m IH]; intros i w Hb Hl HNk Hj; [lia |].
  cbn [expand_words].
  destruct (Nat.eq_dec j i) as [-> | Hne].
  - destruct (expand_words_prefix Nk m (S i) (w ++ next_word Nk i w)) as [rest ->].
    rewrite <- !app_assoc.
    rewrite next_word_app by lia.
    destruct (next_word_four Nk i w Hb) as (a & b & c & d & -> & _).
    now apply word_at_end.
  - apply IH; [now apply bytes_app_next | now apply length_app_next | lia | lia].
Qed.

Lemma expand_words_old (Nk m i : nat) (w : list Z) (j : nat) :
  (4 * j + 4 <= length w)%nat -> word (expand_words Nk i m w) j = word w j.
Proof.
  intros Hj. destruct (expand_words_prefix Nk m i w) as [rest ->].
  now apply word_app.
Qed.

Lemma keyExpansion_expand (k : list Z) :
  (length k = 16 \/ length k = 24 \/ length k = 32)%nat -> bytes k ->
  keyExpansion k
  = expand_words (length k / 4) (length k / 4) (4 * (length k / 4 + 6 + 1) - length k / 4) k.
Proof.
  intros Hlen Hb. unfold keyExpansion, for_range. cbv zeta.
  set (nk := (length k / 4)%nat).
  assert (length k = (nk * 4)%nat /\ (4 <= nk)%nat) as [Hk Hnk]
    by (subst nk; destruct Hlen as [-> | [-> | ->]]; cbn; lia).
  set (m := (4 * (nk + 6 + 1) - nk)%nat).
  assert (set_at (zeros (16 * (nk + 6 + 1))) k 0 = k ++ zeros (4 * m)) as ->.
  { unfold set_at, zeros. rewrite take_0, drop_replicate. cbn [app Nat.add].
    f_equal. f_equal. lia. }
  apply keyExpansion_loop; [exact Hk | lia | exact Hb].
Qed.

(** C3: the expanded key satisfies the Rijndael recurrence.  For a key
    of 16, 24 or 32 bytes, with [Nk = len/4] and [Nr = Nk + 6], the first
    [Nk] words of the schedule are the key, and every word [i] with
    [Nk <= i < 4 * (Nr + 1)] is word [i - Nk] XORed with [T] of word
    [i - 1], where [T] rotates, substitutes and XORs the round constant
    [RCON[i / Nk]] when [i % Nk == 0], substitutes only when [Nk > 6]
    and [i % Nk == 4], and is the identity otherwise. *)
Theorem keyExpansion_recurrence (k : list Z) :
  (length k = 16 \/ length k = 24 \/ length k = 32)%nat -> bytes k ->
  let Nk := (length k / 4)%nat in
  let Nr := (Nk + 6)%nat in
  let w := keyExpansion k in
  length w = (16 * (Nr + 1))%nat /\
  (forall i, (i < Nk)%nat -> word w i = word k i) /\
  (forall i, (Nk <= i < 4 * (Nr + 1))%nat ->
     word w i = xor_word (word w (i - Nk)) (schedule_T Nk i (word w (i - 1)))).
Proof.
  intros Hlen Hb Nk Nr w. subst w. rewrite (keyExpansion_expand k Hlen Hb).
  fold Nk. fold Nr.
  assert (length k = (Nk * 4)%nat /\ (4 <= Nk)%nat) as [Hk HNk]
    by (subst Nk; destruct Hlen as [-> | [-> | ->]]; cbn; lia).
  split; [| split].
  - rewrite (expand_words_length Nk _ Nk k Hb Hk). lia.
  - intros i Hi. apply expand_words_old. lia.
  - intros i Hi. apply (expand_words_recurrence Nk _ Nk k i Hb Hk); lia.
Qed.

(** * The claims *)

(** ** C4: the doubling helper *)

(** C4, as stated, fails at [x = 0x80]: [xtime] returns 283, which is
    neither the truncated double 0x1b nor a byte. *)
Lemma xtime_0x80_not_a_byte :
  byte 0x80 /\ xtime 0x80 = 283 /\ double_spec 0x80 = 0x1b /\
  xtime 0x80 <> double_spec 0x80 /\ ~ byte (xtime 0x80).
Proof.
  split; [unfold byte; lia |]. split; [reflexivity |]. split; [reflexivity |].
  split; [discriminate |]. intros [_ H]. vm_compute in H. discriminate H.
Qed.

(** C4, amended: for every byte [x], [xtime x] is [x] shifted left one
    bit, not truncated, XORed with 0x1b exactly when bit 7 of [x] is set;
    it lies in 0..511 and is a byte exactly when [x < 128]; its low eight
    bits, which a store into a byte array keeps, are the GF(2^8) double
    of the specification. *)
Theorem xtime_spec (x : Z) :
  byte x ->
  xtime x = Z.lxor (Z.shiftl x 1) (if Z.testbit x 7 then 0x1b else 0) /\
  u8 (xtime x) = double_spec x /\
  0 <= xtime x < 512 /\
  (byte (xtime x) <-> x < 128).
Proof.
  intros Hx. split; [apply xtime_alt |].
  pose proof (byte_cases
    (fun x => (u8 (xtime x) =? double_spec x) && (0 <=? xtime x) && (xtime x <? 512)
              && Bool.eqb (xtime x <? 256) (x <? 128)) eq_refl x Hx) as H.
  cbv beta in H. rewrite !andb_true_iff, Bool.eqb_true_iff in H.
  destruct H as [[[H1 H2] H3] H4].
  split; [now apply Z.eqb_eq |]. split; [lia |].
  unfold byte. split.
  - intros [_ Hlt]. apply Z.ltb_lt. rewrite <- H4. now apply Z.ltb_lt.
  - intros Hlt. split; [lia |]. apply Z.ltb_lt. rewrite H4. now apply Z.ltb_lt.
Qed.

Lemma xtime_spec_witness :
  byte 0x57 /\ u8 (xtime 0x57) = double_spec 0x57.
Proof.
  assert (byte 0x57) as H by (unfold byte; lia).
  split; [exact H | exact (proj1 (proj2 (xtime_spec 0x57 H)))].
Defined.

(** ** C5: [mixColumns] and [invMixColumns] *)

(** C5: on every state of sixteen bytes, [invMixColumns] after
    [mixColumns] and [mixColumns] after [invMixColumns] both return the
    state. *)
Theorem mixColumns_round_trip (state : list Z) :
  length state = 16%nat -> bytes state ->
  invMixColumns (mixColumns state) = state /\
  mixColumns (invMixColumns state) = state.
Proof.
  intros Hl Hb. assert (shaped 16 state) as Hs by (split; assumption).
  split; [now apply invMixColumns_mixColumns | now apply mixColumns_invMixColumns].
Qed.

Lemma bytes_test_block : bytes test_block.
Proof. unfold bytes, test_block. repeat (constructor; [unfold byte; lia |]). constructor. Qed.

Lemma mixColumns_round_trip_witness :
  invMixColumns (mixColumns test_block) = test_block /\
  mixColumns (invMixColumns test_block) = test_block.
Proof. apply mixColumns_round_trip; [reflexivity | exact bytes_test_block]. Defined.

(** ** C3: witness *)

Lemma keyExpansion_recurrence_witness :
  word (keyExpansion test_key) 4
  = xor_word (word (keyExpansion test_key) 0)
      (schedule_T 4 4 (word (keyExpansion test_key) 3)).
Proof.
  pose proof (keyExpansion_recurrence test_key (or_introl eq_refl) bytes_test_block) as H.
  cbv zeta in H. destruct H as (_ & _ & H).
  apply (H 4%nat). cbn. lia.
Defined.

(** ** C1: witness *)

Lemma decrypt_encrypt_witness :
  exists this c,
    new_AES test_key cbc_options = ok this /\
    encrypt this test_plaintext = (this, ok c) /\ decrypt this c = (this, ok test_plaintext).
Proof.
  assert (exists this, new_AES test_key cbc_options = ok this) as [this Hnew]
    by (eexists; vm_compute; reflexivity).
  assert (mode this = Mode_CBC) as Hm.
  { destruct (new_AES_ok _ _ _ Hnew) as (-> & _). reflexivity. }
  assert (bytes test_plaintext) as Hp
    by (apply Forall_app; split; exact bytes_test_block).
  destruct (decrypt_encrypt test_key cbc_options this test_plaintext Hnew (or_intror Hm) Hp)
    as (c & Hc & Hd).
  exists this, c. auto.
Defined.

(** ** C2: the ECB test vector *)

(** C2, as stated, fails: under the default PKCS7 padding the ciphertext
    of the 32-byte message has a third block. *)
Lemma ecb_vector_has_padding_block :
  exists this,
    new_AES test_key None = ok this /\
    snd (encrypt this test_plaintext) <> ok (test_cipher_block ++ test_cipher_block).
Proof.
  eexists. split; [vm_compute; reflexivity |].
  vm_compute. intros H. discriminate H.
Qed.

(** C2, amended: with the key of bytes 1..16 in ECB mode (the default),
    one block of bytes 1..16 encrypts to the stated block, and [encrypt]
    of the 32-byte message returns 48 bytes: the stated block twice and
    then the encryption of the PKCS7 padding block. *)
Theorem ecb_test_vector :
  exists this,
    new_AES test_key None = ok this /\
    mode this = Mode_ECB /\
    encryptBlock (key this) test_block = test_cipher_block /\
    encryptBlock (key this) (replicate 16 16) = padding_cipher_block /\
    encrypt this test_plaintext
    = (this, ok (test_cipher_block ++ test_cipher_block ++ padding_cipher_block)).
Proof.
  eexists. split; [vm_compute; reflexivity |].
  repeat split; vm_compute; reflexivity.
Qed.

(** ** C6: the key-length check *)

(** C6, as stated, fails: with CBC selected and no IV, a 17-byte key is
    rejected with the IV error, raised before the key is looked at. *)
Lemma iv_checked_before_key :
  length (zeros 17) = 17%nat /\
  new_AES (zeros 17)
    (Some {| opt_mode := Some Mode_CBC; opt_iv := None; opt_padding := None |})
  = throw IvNotSet /\
  new_AES (zeros 17)
    (Some {| opt_mode := Some Mode_CBC; opt_iv := None; opt_padding := None |})
  <> throw KeyLength.
Proof. split; [reflexivity |]. split; [reflexivity | discriminate]. Qed.

(** C6, amended: a key of 16, 24 or 32 bytes never raises the key-length
    error.  A key of another length makes construction fail: with the
    key-length error when the IV check passes (the mode is not CBC, or
    the IV has 16 bytes), and with the IV error, which is raised first,
    when the mode is CBC and the IV is missing or not 16 bytes long. *)
Theorem new_AES_key_length (k : list Z) (options : option AESOptions) :
  (In (length k) [16; 24; 32]%nat -> new_AES k options <> throw KeyLength) /\
  (~ In (length k) [16; 24; 32]%nat ->
     (option_mode options <> Mode_CBC \/
      (exists v, option_iv options = Some v /\ length v = 16%nat) ->
      new_AES k options = throw KeyLength) /\
     (option_mode options = Mode_CBC -> option_iv options = None ->
      new_AES k options = throw IvNotSet) /\
     (forall v, option_mode options = Mode_CBC -> option_iv options = Some v ->
                length v <> 16%nat -> new_AES k options = throw IvLength)).
Proof.
  unfold new_AES, check_iv. cbv zeta. split.
  - intros Hin.
    assert (existsb (Nat.eqb (length k)) [16; 24; 32]%nat = true) as ->.
    { apply existsb_exists. exists (length k). split; [exact Hin | apply Nat.eqb_refl]. }
    destruct (option_mode options =? Mode_CBC); [| discriminate].
    destruct (option_iv options) as [v |]; [| discriminate].
    destruct (length v =? 16)%nat; discriminate.
  - intros Hout.
    assert (existsb (Nat.eqb (length k)) [16; 24; 32]%nat = false) as ->.
    { apply not_true_is_false. intros H. apply existsb_exists in H.
      destruct H as (n & Hn & He). apply Nat.eqb_eq in He. now subst n. }
    cbn [negb]. split; [| split].
    + intros [Hm | (v & -> & Hv)].
      * apply Z.eqb_neq in Hm. now rewrite Hm.
      * rewrite Hv. cbn [Nat.eqb negb]. now destruct (option_mode options =? Mode_CBC).
    + intros -> ->. reflexivity.
    + intros v -> -> Hv. apply Nat.eqb_neq in Hv. now rewrite Z.eqb_refl, Hv.
Qed.

Lemma new_AES_key_length_witness :
  new_AES (zeros 17) None = throw KeyLength /\
  new_AES test_key None <> throw KeyLength.
Proof.
  destruct (new_AES_key_length (zeros 17) None) as [_ H17].
  destruct (new_AES_key_length test_key None) as [H16 _].
  split.
  - apply H17.
    + cbn. intros [H | [H | [H | []]]]; discriminate H.
    + left. discriminate.
  - apply H16. cbn. left. reflexivity.
Defined.

(** ** C8: ciphertext that is not block-aligned *)

(** C8: in ECB or CBC mode, [decrypt] of data whose length is not a
    multiple of 16 fails with the input-length error; the outcome is the
    error alone, no output comes with it. *)
Theorem decrypt_input_length (this : AES) (data : list Z) :
  mode this = Mode_ECB \/ mode this = Mode_CBC ->
  (length data mod 16 <> 0)%nat ->
  decrypt this data = (this, throw InputLength).
Proof.
  intros _ Hlen. unfold decrypt.
  apply Nat.eqb_neq in Hlen. now rewrite Hlen.
Qed.

Lemma decrypt_input_length_witness :
  exists this,
    new_AES test_key cbc_options = ok this /\
    decrypt this (zeros 17) = (this, throw InputLength).
Proof.
  eexists. split; [vm_compute; reflexivity |].
  apply decrypt_input_length; [right; reflexivity | cbn; lia].
Defined.

(** ** C7: modes other than ECB and CBC *)







(** ** C9: the feedback value across calls *)

(** C9, as stated, fails: two [encrypt] calls on one CBC instance return
    what fresh instances return, and the instance is the same after the
    first call as before it. *)
Lemma second_call_starts_from_iv :
  exists this,
    new_AES test_key cbc_options = ok this /\
    fst (encrypt this test_block) = this /\
    snd (encrypt (fst (encrypt this test_block)) test_plaintext)
    = snd (encrypt this test_plaintext) /\
    snd (decrypt (fst (decrypt this test_block)) test_plaintext)
    = snd (decrypt this test_plaintext).
Proof.
  eexists. split; [vm_compute; reflexivity |].
  repeat split; vm_compute; reflexivity.
Qed.

(** C9, amended: the feedback value is a local variable that every call
    initialises from the IV given at construction; [encrypt] and
    [decrypt] leave the instance as it was, so a later call on the same
    instance returns what it returns on a fresh instance. *)
Theorem calls_leave_instance (this : AES) (first second : list Z) :
  fst (encrypt this first) = this /\
  fst (decrypt this first) = this /\
  encrypt (fst (encrypt this first)) second = encrypt this second /\
  decrypt (fst (decrypt this first)) second = decrypt this second /\
  encrypt (fst (decrypt this first)) second = encrypt this second /\
  decrypt (fst (encrypt this first)) second = decrypt this second.
Proof.
  assert (fst (encrypt this first) = this) as He.
  { unfold encrypt. cbv zeta.
    destruct (mode this =? Mode_ECB); [reflexivity |].
    destruct (mode this =? Mode_CBC); [| reflexivity].
    destruct (iv this); [| reflexivity].
    now rewrite (triple_middle _ (fun e => (this, ok e))). }
  assert (fst (decrypt this first) = this) as Hd.
  { unfold decrypt. cbv zeta.
    destruct (negb _); [reflexivity |].
    destruct (mode this =? Mode_ECB); [reflexivity |].
    destruct (mode this =? Mode_CBC); [| reflexivity].
    destruct (iv this); [| now destruct (length first =? 0)%nat].
    now rewrite (pair_first _ (fun d => (this, unpad d (padding this) 16))). }
  rewrite He, Hd. auto 10.
Qed.

(** ** C10: the IV in ECB mode *)

Lemma encrypt_ECB_iv (k : list Z) (pd : Padding) (iv1 iv2 : option (list Z)) (data : list Z) :
  snd (encrypt {| key := k; mode := Mode_ECB; iv := iv1; padding := pd |} data)
  = snd (encrypt {| key := k; mode := Mode_ECB; iv := iv2; padding := pd |} data).
Proof. reflexivity. Qed.

Lemma decrypt_ECB_iv (k : list Z) (pd : Padding) (iv1 iv2 : option (list Z)) (data : list Z) :
  snd (decrypt {| key := k; mode := Mode_ECB; iv := iv1; padding := pd |} data)
  = snd (decrypt {| key := k; mode := Mode_ECB; iv := iv2; padding := pd |} data).
Proof.
  unfold decrypt. cbn [mode key padding iv]. now destruct (negb _).
Qed.

(** C10: in ECB mode (selected or by default) the IV is not validated
    and has no effect: with a key of 16, 24 or 32 bytes, construction
    succeeds whatever the [iv] option is, absent or of any length, and
    for any two [iv] values [encrypt] and [decrypt] return the same
    outcome on every input. *)
Theorem ecb_ignores_iv (k : list Z) (selector : option Z) (pd : option Padding)
    (iv1 iv2 : option (list Z)) :
  (length k = 16 \/ length k = 24 \/ length k = 32)%nat ->
  selector = None \/ selector = Some Mode_ECB ->
  exists this1 this2,
    new_AES k (Some {| opt_mode := selector; opt_iv := iv1; opt_padding := pd |}) = ok this1 /\
    new_AES k (Some {| opt_mode := selector; opt_iv := iv2; opt_padding := pd |}) = ok this2 /\
    forall data,
      snd (encrypt this1 data) = snd (encrypt this2 data) /\
      snd (decrypt this1 data) = snd (decrypt this2 data).
Proof.
  intros Hlen Hsel.
  assert (forall v, new_AES k (Some {| opt_mode := selector; opt_iv := v; opt_padding := pd |})
                    = ok {| key := keyExpansion k; mode := Mode_ECB; iv := v;
                            padding := match pd with Some p => p | None => PKCS7 end |}) as Hnew.
  { intros v. unfold new_AES, check_iv. cbv zeta.
    assert (option_mode (Some {| opt_mode := selector; opt_iv := v; opt_padding := pd |})
            = Mode_ECB) as -> by (destruct Hsel as [-> | ->]; reflexivity).
    cbn [Z.eqb Mode_ECB Mode_CBC Pos.eqb option_iv option_padding opt_iv].
    assert (existsb (Nat.eqb (length k)) [16; 24; 32]%nat = true) as ->
      by (destruct Hlen as [-> | [-> | ->]]; reflexivity).
    reflexivity. }
  do 2 eexists. split; [apply Hnew |]. split; [apply Hnew |].
  intros data. split; [apply encrypt_ECB_iv | apply decrypt_ECB_iv].
Qed.

Lemma ecb_ignores_iv_witness :
  exists this1 this2,
    new_AES test_key
      (Some {| opt_mode := Some Mode_ECB; opt_iv := None; opt_padding := None |}) = ok this1 /\
    new_AES test_key
      (Some {| opt_mode := Some Mode_ECB; opt_iv := Some [1; 2; 3]; opt_padding := None |})
    = ok this2 /\
    forall data,
      snd (encrypt this1 data) = snd (encrypt this2 data) /\
      snd (decrypt this1 data) = snd (decrypt this2 data).
Proof.
  apply (ecb_ignores_iv test_key (Some Mode_ECB) None None (Some [1; 2; 3])).
  - left. reflexivity.
  - right. reflexivity.
Defined.

(** * Further properties of the cipher *)

(** ** The block transforms *)

Lemma bytes_expand_words (Nk m i : nat) (w : list Z) :
  bytes w -> bytes (expand_words Nk i m w).
Proof.
  revert i w. induction m as [| m IH]; intros i w Hb; cbn [expand_words]; [exact Hb |].
  apply IH. now apply bytes_app_next.
Qed.

(** X1: under any key array of bytes whose length is a multiple of 16
    (every expanded key is one), [decryptBlock] and [encryptBlock] are
    inverse to each other on blocks of 16 bytes, and each returns a
    block of 16 bytes. *)
Theorem block_round_trip (key data : list Z) :
  (length key mod 16 = 0)%nat -> bytes key ->
  length data = 16%nat -> bytes data ->
  decryptBlock key (encryptBlock key data) = data /\
  encryptBlock key (decryptBlock key data) = data /\
  shaped 16 (encryptBlock key data) /\ shaped 16 (decryptBlock key data).
Proof.
  intros _ _ Hl Hb. assert (shaped 16 data) as Hs by (split; assumption).
  split; [now apply decryptBlock_encryptBlock |].
  split; [now apply encryptBlock_decryptBlock |].
  split; [now apply shaped_encryptBlock | now apply shaped_decryptBlock].
Qed.

Lemma block_round_trip_witness :
  decryptBlock (keyExpansion test_key) (encryptBlock (keyExpansion test_key) test_block)
  = test_block /\
  encryptBlock (keyExpansion test_key) (decryptBlock (keyExpansion test_key) test_block)
  = test_block.
Proof.
  assert (length (keyExpansion test_key) mod 16 = 0)%nat as Hkl
    by (vm_compute; reflexivity).
  assert (bytes (keyExpansion test_key)) as Hkb.
  { rewrite (keyExpansion_expand test_key (or_introl eq_refl) bytes_test_block).
    apply bytes_expand_words. exact bytes_test_block. }
  destruct (block_round_trip (keyExpansion test_key) test_block Hkl Hkb eq_refl
              bytes_test_block) as (H1 & H2 & _).
  split; assumption.
Defined.

(** X2: [shiftRows] rotates row [r] of the column-major 4x4 state by
    [r] columns, and [invShiftRows] rotates it back: entry [k] of the
    result is entry [shifted k] (resp. [unshifted k]) of the state. *)
Theorem shiftRows_rotates_rows (state : list Z) :
  length state = 16%nat -> bytes state ->
  shiftRows state = map (fun k => rd state (shifted k)) (seq 0 16) /\
  invShiftRows state = map (fun k => rd state (unshifted k)) (seq 0 16).
Proof.
  intros Hl Hb. state16 state Hl Hb.
  split; run_state; rewrite !u8_id by assumption; reflexivity.
Qed.

Lemma shiftRows_rotates_rows_witness :
  shiftRows test_block = [1; 6; 11; 16; 5; 10; 15; 4; 9; 14; 3; 8; 13; 2; 7; 12].
Proof.
  rewrite (proj1 (shiftRows_rotates_rows test_block eq_refl bytes_test_block)).
  reflexivity.
Defined.

(** X3: [shiftRows] and [invShiftRows] are inverse to each other on
    states of 16 bytes. *)
Theorem shiftRows_inverse (state : list Z) :
  length state = 16%nat -> bytes state ->
  invShiftRows (shiftRows state) = state /\ shiftRows (invShiftRows state) = state.
Proof.
  intros Hl Hb. assert (shaped 16 state) as Hs by (split; assumption).
  split; [now apply invShiftRows_shiftRows | now apply shiftRows_invShiftRows].
Qed.

Lemma shiftRows_inverse_witness :
  invShiftRows (shiftRows test_block) = test_block /\
  shiftRows (invShiftRows test_block) = test_block.
Proof. apply shiftRows_inverse; [reflexivity | exact bytes_test_block]. Defined.

(** X4: the tables [SBOX] and [RSBOX] are inverse permutations of the
    bytes, so [subBytes] and [invSubBytes] are inverse to each other on
    states of 16 bytes. *)
Theorem subBytes_inverse (state : list Z) (x : Z) :
  length state = 16%nat -> bytes state -> byte x ->
  byte (sbox x) /\ byte (rsbox x) /\ rsbox (sbox x) = x /\ sbox (rsbox x) = x /\
  invSubBytes (subBytes state) = state /\ subBytes (invSubBytes state) = state.
Proof.
  intros Hl Hb Hx. assert (shaped 16 state) as Hs by (split; assumption).
  split; [now apply sbox_byte |]. split; [now apply rsbox_byte |].
  split; [now apply rsbox_sbox |]. split; [now apply sbox_rsbox |].
  split; [now apply invSubBytes_subBytes | now apply subBytes_invSubBytes].
Qed.

Lemma subBytes_inverse_witness :
  invSubBytes (subBytes test_block) = test_block /\ rsbox (sbox 0x53) = 0x53.
Proof.
  assert (byte 0x53) as Hx by (unfold byte; lia).
  destruct (subBytes_inverse test_block 0x53 eq_refl bytes_test_block Hx)
    as (_ & _ & H1 & _ & H2 & _).
  split; assumption.
Defined.

(** X5: [addRoundKey] is an involution: adding the same round key twice
    gives the state back, whatever the key array and the round are (a
    round beyond the key array adds nothing). *)
Theorem addRoundKey_involution (key state : list Z) (round : nat) :
  length state = 16%nat -> bytes state ->
  addRoundKey key (addRoundKey key state round) round = state /\
  ((length key <= round * 16)%nat -> addRoundKey key state round = state).
Proof.
  intros Hl Hb. assert (shaped 16 state) as Hs by (split; assumption).
  split; [now apply addRoundKey_addRoundKey |].
  intros Hout. unfold addRoundKey.
  change (fun (i : nat) (state : list Z) =>
            wr state i (Z.lxor (rd state i) (rd key (round * 16 + i))))
    with (fun (i : nat) (state : list Z) =>
            wr state i (Z.lxor (rd state i) ((fun j => rd key (round * 16 + j)) i))).
  set (k := fun j => rd key (round * 16 + j)).
  assert (forall j, k j = 0) as Hk.
  { intros j. unfold k, rd. now rewrite lookup_ge_None_2 by lia. }
  clearbody k.
  state16 state Hl Hb. run_state. rewrite !Hk, !Z.lxor_0_r.
  now rewrite !u8_id by assumption.
Qed.

Lemma addRoundKey_involution_witness :
  addRoundKey test_key (addRoundKey test_key test_block 0) 0 = test_block.
Proof.
  apply (addRoundKey_involution test_key test_block 0); [reflexivity | exact bytes_test_block].
Defined.

(** ** The column mix as a matrix product *)

Lemma u8_xtime_double (x : Z) : u8 (xtime x) = double_spec x.
Proof.
  unfold double_spec. cbv zeta. rewrite xtime_alt, u8_lxor.
  destruct (Z.testbit x 7); [reflexivity | now rewrite Z.lxor_0_r].
Qed.

Lemma byte_double (x : Z) : byte (double_spec x).
Proof. rewrite <- u8_xtime_double. apply u8_byte. Qed.

Lemma eqm_intro (x y : Z) : eqm x y -> u8 x = u8 y.
Proof. exact (fun H => H). Qed.

(** Compare a stored entry with an XOR combination of GF(2^8) multiples. *)
Ltac gf_entry :=
  unfold gf14, gf13, gf11, gf9, gf8, gf4, gf3, gf2;
  rewrite <- ?u8_xtime_double;
  match goal with
  | |- u8 _ = ?R =>
      rewrite <- (u8_id R)
        by (repeat apply byte_lxor; first [apply u8_byte | assumption])
  end;
  apply eqm_intro; rewrite ?u8_eqm; apply eq_eqm; xor_solve.

(** X6: [mixColumns] multiplies every column [(a, b, c, d)] of a
    16-byte state by the circulant matrix with first row
    [(02, 03, 01, 01)] over GF(2^8). *)
Theorem mixColumns_matrix (state : list Z) (col : nat) :
  length state = 16%nat -> bytes state -> (col < 4)%nat ->
  let a := rd state (4 * col) in
  let b := rd state (4 * col + 1) in
  let c := rd state (4 * col + 2) in
  let d := rd state (4 * col + 3) in
  let out := mixColumns state in
  rd out (4 * col) = Z.lxor (Z.lxor (Z.lxor (gf2 a) (gf3 b)) c) d /\
  rd out (4 * col + 1) = Z.lxor (Z.lxor (Z.lxor a (gf2 b)) (gf3 c)) d /\
  rd out (4 * col + 2) = Z.lxor (Z.lxor (Z.lxor a b) (gf2 c)) (gf3 d) /\
  rd out (4 * col + 3) = Z.lxor (Z.lxor (Z.lxor (gf3 a) b) c) (gf2 d).
Proof.
  intros Hl Hb Hcol. cbv zeta. state16 state Hl Hb.
  do 4 (destruct col as [| col]; [run_state; repeat split; gf_entry |]).
  lia.
Qed.

Lemma mixColumns_matrix_witness :
  rd (mixColumns test_block) 0 = Z.lxor (Z.lxor (Z.lxor (gf2 1) (gf3 2)) 3) 4.
Proof.
  pose proof (mixColumns_matrix test_block 0 eq_refl bytes_test_block ltac:(lia)) as H.
  cbv zeta in H. exact (proj1 H).
Defined.

(** X7: [invMixColumns] multiplies every column by the circulant matrix
    with first row [(0e, 0b, 0d, 09)] over GF(2^8). *)
Theorem invMixColumns_matrix (state : list Z) (col : nat) :
  length state = 16%nat -> bytes state -> (col < 4)%nat ->
  let a := rd state (4 * col) in
  let b := rd state (4 * col + 1) in
  let c := rd state (4 * col + 2) in
  let d := rd state (4 * col + 3) in
  let out := invMixColumns state in
  rd out (4 * col) = Z.lxor (Z.lxor (Z.lxor (gf14 a) (gf11 b)) (gf13 c)) (gf9 d) /\
  rd out (4 * col + 1) = Z.lxor (Z.lxor (Z.lxor (gf9 a) (gf14 b)) (gf11 c)) (gf13 d) /\
  rd out (4 * col + 2) = Z.lxor (Z.lxor (Z.lxor (gf13 a) (gf9 b)) (gf14 c)) (gf11 d) /\
  rd out (4 * col + 3) = Z.lxor (Z.lxor (Z.lxor (gf11 a) (gf13 b)) (gf9 c)) (gf14 d).
Proof.
  intros Hl Hb Hcol. cbv zeta. state16 state Hl Hb.
  do 4 (destruct col as [| col]; [run_state; repeat split; gf_entry |]).
  lia.
Qed.

Lemma invMixColumns_matrix_witness :
  rd (invMixColumns test_block) 0
  = Z.lxor (Z.lxor (Z.lxor (gf14 1) (gf11 2)) (gf13 3)) (gf9 4).
Proof.
  pose proof (invMixColumns_matrix test_block 0 eq_refl bytes_test_block ltac:(lia)) as H.
  cbv zeta in H. exact (proj1 H).
Defined.

Lemma lxor_below_31 (a b : Z) :
  0 <= a < 2 ^ 31 -> 0 <= b < 2 ^ 31 -> 0 <= Z.lxor a b < 2 ^ 31.
Proof.
  intros Ha Hb.
  assert (0 <= Z.lxor a b) as Hnn by (apply Z.lxor_nonneg; lia).
  split; [exact Hnn |].
  apply Z.bounded_iff_bits_nonneg; [lia | exact Hnn |].
  intros l Hl. rewrite Z.lxor_spec.
  rewrite (proj1 (Z.bounded_iff_bits_nonneg 31 a ltac:(lia) ltac:(lia)) ltac:(lia) l Hl).
  now rewrite (proj1 (Z.bounded_iff_bits_nonneg 31 b ltac:(lia) ltac:(lia)) ltac:(lia) l Hl).
Qed.

(** X8: on the integers [0 <= x, y < 2^30], where the 32-bit shift of
    the source does not wrap (the result stays below [2^31]), [xtime] is
    additive over XOR and sends zero to zero, and the low eight bits of
    its result depend only on the low eight bits of its argument; so the
    truncation made by the array stores may be applied before or after
    it. *)
Theorem xtime_linear (x y : Z) :
  0 <= x < 2 ^ 30 -> 0 <= y < 2 ^ 30 ->
  0 <= xtime x < 2 ^ 31 /\
  0 <= Z.lxor x y < 2 ^ 30 /\
  xtime (Z.lxor x y) = Z.lxor (xtime x) (xtime y) /\
  xtime 0 = 0 /\
  u8 (xtime (u8 x)) = u8 (xtime x) /\
  u8 (Z.lxor x y) = Z.lxor (u8 x) (u8 y).
Proof.
  intros Hx Hy. split; [| split].
  - rewrite xtime_alt. apply lxor_below_31.
    + rewrite Z.shiftl_mul_pow2 by lia. lia.
    + destruct (Z.testbit x 7); lia.
  - assert (0 <= Z.lxor x y) as Hnn by (apply Z.lxor_nonneg; lia).
    split; [exact Hnn |].
    apply Z.bounded_iff_bits_nonneg; [lia | exact Hnn |].
    intros l Hl. rewrite Z.lxor_spec.
    rewrite (proj1 (Z.bounded_iff_bits_nonneg 30 x ltac:(lia) ltac:(lia)) ltac:(lia) l Hl).
    now rewrite (proj1 (Z.bounded_iff_bits_nonneg 30 y ltac:(lia) ltac:(lia)) ltac:(lia) l Hl).
  - split; [apply xtime_lxor |]. split; [reflexivity |].
    split; [apply u8_xtime | apply u8_lxor].
Qed.

Lemma xtime_linear_witness :
  xtime (Z.lxor 0x57 0x83) = Z.lxor (xtime 0x57) (xtime 0x83).
Proof.
  apply (xtime_linear 0x57 0x83); lia.
Defined.

(** ** Construction *)

(** X9: construction succeeds exactly when the key has 16, 24 or 32
    bytes and, if the mode is CBC, an IV of 16 bytes is given; the mode
    selector itself is not checked (any other selector is accepted and
    only rejected by [encrypt] and [decrypt]).  The instance then holds
    the expanded key and the fields taken from the options. *)
Theorem new_AES_succeeds_iff (k : list Z) (options : option AESOptions) :
  ((exists this, new_AES k options = ok this) <->
   (In (length k) [16; 24; 32]%nat /\
    (option_mode options = Mode_CBC ->
     exists v, option_iv options = Some v /\ length v = 16%nat))) /\
  (forall this, new_AES k options = ok this ->
     this = {| key := keyExpansion k; mode := option_mode options;
               iv := option_iv options; padding := option_padding options |}).
Proof.
  split; [split |].
  - intros [this Hnew]. destruct (new_AES_ok k options this Hnew) as (-> & Hlen & Hiv).
    split; [| exact Hiv].
    destruct Hlen as [-> | [-> | ->]]; cbn; auto.
  - intros [Hin Hiv]. unfold new_AES, check_iv. cbv zeta.
    assert (existsb (Nat.eqb (length k)) [16; 24; 32]%nat = true) as ->.
    { apply existsb_exists. exists (length k). split; [exact Hin | apply Nat.eqb_refl]. }
    destruct (Z.eqb_spec (option_mode options) Mode_CBC) as [Hm | Hm].
    + destruct (Hiv Hm) as (v & -> & Hv). rewrite Hv. cbn [Nat.eqb negb]. eauto.
    + cbn [negb]. eauto.
  - intros this Hnew. now destruct (new_AES_ok k options this Hnew) as (-> & _).
Qed.

Lemma new_AES_succeeds_iff_witness :
  exists this,
    new_AES test_key
      (Some {| opt_mode := Some 7; opt_iv := None; opt_padding := None |}) = ok this.
Proof.
  apply (proj1 (new_AES_succeeds_iff test_key _)). split.
  - cbn. left. reflexivity.
  - cbn. discriminate.
Defined.

(** ** Whole messages *)

Lemma pad_length_exact (data : list Z) (pd : Padding) :
  length (pad data pd 16) = (16 * (length data / 16 + 1))%nat.
Proof.
  destruct (pad_eq data pd) as (n & q & Hn & Hq & ->).
  rewrite length_app, length_replicate.
  pose proof (Nat.div_mod_eq (length data) 16) as Hdm.
  pose proof (Nat.mod_upper_bound (length data) 16 ltac:(lia)) as Hlt.
  lia.
Qed.

Lemma shaped_pad_exact (data : list Z) (pd : Padding) :
  bytes data -> shaped (16 * (length data / 16 + 1)) (pad data pd 16).
Proof.
  intros Hb. destruct (shaped_pad data pd Hb) as [q [Hl Hpb]].
  split; [apply pad_length_exact | exact Hpb].
Qed.

(** X10: in ECB mode, and in CBC mode with an IV, [encrypt] succeeds on
    every input of bytes and returns bytes; the output has
    [16 * (len / 16 + 1)] bytes, a whole number of blocks and 1 to 16
    bytes more than the input (a block-aligned input grows by a full
    block). *)
Theorem encrypt_output_length (this : AES) (data : list Z) :
  bytes data ->
  mode this = Mode_ECB \/ (mode this = Mode_CBC /\ iv this <> None) ->
  exists c,
    encrypt this data = (this, ok c) /\ bytes c /\
    length c = (16 * (length data / 16 + 1))%nat /\
    (length data < length c <= length data + 16)%nat.
Proof.
  intros Hb Hmode.
  pose proof (shaped_pad_exact data (padding this) Hb) as Hs.
  set (n := (length data / 16 + 1)%nat) in *.
  assert (16 * n = 16 * (length data / 16 + 1))%nat as Hn by reflexivity.
  pose proof (Nat.div_mod_eq (length data) 16) as Hdm.
  pose proof (Nat.mod_upper_bound (length data) 16 ltac:(lia)) as Hlt.
  destruct Hmode as [Hm | [Hm Hiv]].
  - eexists. split; [apply (encrypt_ECB this data n Hm Hs) |].
    destruct (shaped_ecb_blocks _ (shaped_encryptBlock (key this)) n _ Hs) as [Hl Hcb].
    split; [exact Hcb |]. rewrite Hl. lia.
  - destruct (iv this) as [v |] eqn:Hv; [| congruence].
    eexists. split; [apply (encrypt_CBC this data v n Hm Hv Hs) |].
    destruct (shaped_cbc_encrypt_blocks _ (shaped_encryptBlock (key this)) n v _ Hs)
      as [Hl Hcb].
    split; [exact Hcb |]. rewrite Hl. lia.
Qed.

Lemma encrypt_output_length_witness :
  exists this c,
    new_AES test_key None = ok this /\
    encrypt this test_plaintext = (this, ok c) /\ length c = 48%nat.
Proof.
  assert (exists this, new_AES test_key None = ok this /\ mode this = Mode_ECB)
    as (this & Hnew & Hm) by (eexists; split; vm_compute; reflexivity).
  assert (bytes test_plaintext) as Hp
    by (apply Forall_app; split; exact bytes_test_block).
  destruct (encrypt_output_length this test_plaintext Hp (or_introl Hm))
    as (c & Hc & _ & Hl & _).
  exists this, c. auto.
Defined.

(** Blocks of the block-by-block functions. *)
Lemma block_eq (a : list Z) (j : nat) : block a j = take 16 (drop (16 * j) a).
Proof.
  unfold block, subarray. now replace (16 * j + 16 - 16 * j)%nat with 16%nat by lia.
Qed.

Lemma block_0_app (a rest : list Z) : length a = 16%nat -> block (a ++ rest) 0 = a.
Proof.
  intros Hl. rewrite block_eq. replace (16 * 0)%nat with 0%nat by lia.
  rewrite drop_0. now rewrite take_app_length'.
Qed.

Lemma block_S_app (a rest : list Z) (j : nat) :
  length a = 16%nat -> block (a ++ rest) (S j) = block rest j.
Proof.
  intros Hl. rewrite !block_eq.
  replace (16 * S j)%nat with (length a + 16 * j)%nat by lia.
  now rewrite drop_app_add.
Qed.

Lemma block_S_drop (a : list Z) (j : nat) : block a (S j) = block (drop 16 a) j.
Proof.
  rewrite !block_eq, drop_drop. f_equal. f_equal. lia.
Qed.

Lemma block_0 (a : list Z) : block a 0 = take 16 a.
Proof. rewrite block_eq. now replace (16 * 0)%nat with 0%nat by lia. Qed.

Lemma ecb_blocks_block (f : list Z -> list Z) (n j : nat) (data : list Z) :
  (forall b, shaped 16 b -> shaped 16 (f b)) ->
  shaped (16 * n) data -> (j < n)%nat ->
  block (ecb_blocks n f data) j = f (block data j).
Proof.
  intros Hf. revert j data. induction n as [| n IH]; intros j data Hs Hj; [lia |].
  cbn [ecb_blocks]. destruct (Hf _ (shaped_take _ _ Hs)) as [Hl _].
  destruct j as [| j].
  - now rewrite block_0_app, block_0.
  - rewrite block_S_app, block_S_drop by exact Hl.
    apply IH; [eapply shaped_drop, Hs | lia].
Qed.

Lemma cbc_encrypt_blocks_block (E : list Z -> list Z) (n j : nat) (prev data : list Z) :
  (forall b, shaped 16 b -> shaped 16 (E b)) ->
  shaped (16 * n) data -> (j < n)%nat ->
  block (cbc_encrypt_blocks n E prev data) j
  = E (xor_into (block data j)
         match j with
         | O => prev
         | S j' => block (cbc_encrypt_blocks n E prev data) j'
         end).
Proof.
  intros HE. revert j prev data. induction n as [| n IH]; intros j prev data Hs Hj; [lia |].
  cbn [cbc_encrypt_blocks].
  pose proof (shaped_xor_into 16 _ prev (shaped_take _ _ Hs)) as Hx.
  destruct (HE _ Hx) as [Hl _].
  destruct j as [| j].
  - now rewrite block_0_app, block_0.
  - rewrite block_S_app, block_S_drop by exact Hl.
    rewrite IH by (try (eapply shaped_drop, Hs); lia).
    destruct j as [| j]; [now rewrite block_0_app | now rewrite block_S_app].
Qed.

(** X11: in ECB mode every ciphertext block is [encryptBlock] of the
    plaintext block at the same place of the padded input and depends on
    nothing else; equal blocks of the padded input give equal ciphertext
    blocks. *)
Theorem ecb_blocks_independent (this : AES) (data : list Z) (j : nat) :
  bytes data -> mode this = Mode_ECB -> (j <= length data / 16)%nat ->
  exists c,
    encrypt this data = (this, ok c) /\
    block c j = encryptBlock (key this) (block (pad data (padding this) 16) j) /\
    (forall j', (j' <= length data / 16)%nat ->
       block (pad data (padding this) 16) j = block (pad data (padding this) 16) j' ->
       block c j = block c j').
Proof.
  intros Hb Hm Hj.
  pose proof (shaped_pad_exact data (padding this) Hb) as Hs.
  eexists. split; [apply (encrypt_ECB this data _ Hm Hs) |].
  assert (forall i, (i <= length data / 16)%nat ->
            block (ecb_blocks (length data / 16 + 1) (encryptBlock (key this))
                     (pad data (padding this) 16)) i
            = encryptBlock (key this) (block (pad data (padding this) 16) i)) as Hblock.
  { intros i Hi. apply ecb_blocks_block;
      [apply shaped_encryptBlock | exact Hs | lia]. }
  split; [now apply Hblock |].
  intros j' Hj' Heq. now rewrite !Hblock, Heq by assumption.
Qed.

Lemma ecb_blocks_independent_witness :
  exists this c,
    new_AES test_key None = ok this /\
    encrypt this test_plaintext = (this, ok c) /\ block c 0 = block c 1.
Proof.
  assert (exists this, new_AES test_key None = ok this /\ mode this = Mode_ECB)
    as (this & Hnew & Hm) by (eexists; split; vm_compute; reflexivity).
  assert (bytes test_plaintext) as Hp
    by (apply Forall_app; split; exact bytes_test_block).
  destruct (ecb_blocks_independent this test_plaintext 0 Hp Hm ltac:(cbn; lia))
    as (c & Hc & _ & Hsame).
  exists this, c. split; [exact Hnew |]. split; [exact Hc |].
  apply Hsame; [cbn; lia |]. destruct (padding this). reflexivity.
Defined.

(** X12: in CBC mode every ciphertext block is [encryptBlock] of the
    plaintext block at the same place of the padded input XORed with the
    previous ciphertext block, and with the IV for the first block. *)
Theorem cbc_blocks_chained (this : AES) (v data : list Z) (j : nat) :
  bytes data -> mode this = Mode_CBC -> iv this = Some v ->
  (j <= length data / 16)%nat ->
  exists c,
    encrypt this data = (this, ok c) /\
    block c j
    = encryptBlock (key this)
        (xor_into (block (pad data (padding this) 16) j)
           match j with
           | O => v
           | S j' => block c j'
           end).
Proof.
  intros Hb Hm Hv Hj.
  pose proof (shaped_pad_exact data (padding this) Hb) as Hs.
  eexists. split; [apply (encrypt_CBC this data v _ Hm Hv Hs) |].
  apply cbc_encrypt_blocks_block; [apply shaped_encryptBlock | exact Hs | lia].
Qed.

Lemma cbc_blocks_chained_witness :
  exists this c,
    new_AES test_key cbc_options = ok this /\
    encrypt this test_plaintext = (this, ok c) /\
    block c 1
    = encryptBlock (key this) (xor_into (block (pad test_plaintext (padding this) 16) 1)
                                 (block c 0)).
Proof.
  assert (exists this, new_AES test_key cbc_options = ok this /\
                       mode this = Mode_CBC /\ iv this = Some test_iv)
    as (this & Hnew & Hm & Hv) by (eexists; repeat split; vm_compute; reflexivity).
  assert (bytes test_plaintext) as Hp
    by (apply Forall_app; split; exact bytes_test_block).
  destruct (cbc_blocks_chained this test_iv test_plaintext 1 Hp Hm Hv ltac:(cbn; lia))
    as (c & Hc & Hblock).
  exists this, c. auto.
Defined.

(** ** From the plaintext back to the ciphertext *)

Lemma forallb_eqb_replicate (v : Z) (l : list Z) :
  forallb (Z.eqb v) l = true -> l = replicate (length l) v.
Proof.
  induction l as [| x l IH]; cbn [forallb length replicate]; [reflexivity |].
  intros H. apply andb_true_iff in H. destruct H as [Hx Hl].
  apply Z.eqb_eq in Hx. subst x. now rewrite <- IH.
Qed.

Lemma pad_unpad (n : nat) (d p : list Z) (pd : Padding) :
  shaped (16 * n) d -> unpad d pd 16 = ok p -> pad p pd 16 = d.
Proof.
  intros [Hl Hb] H. unfold unpad in H.
  destruct (last d) as [v |] eqn:Hlast; [| discriminate H].
  assert (byte v) as Hv.
  { unfold bytes in Hb. rewrite Forall_forall in Hb. apply Hb.
    apply last_Some in Hlast. destruct Hlast as [l' ->]. apply elem_of_app. right.
    apply list_elem_of_singleton. reflexivity. }
  destruct (Z.eqb_spec v 0) as [H0 | H0]; [discriminate H |].
  destruct (Z.ltb_spec (Z.of_nat 16) v) as [H1 | H1]; [discriminate H |].
  destruct (Z.ltb_spec (Z.of_nat (length d)) v) as [H2 | H2]; [discriminate H |].
  cbn [orb] in H.
  destruct (forallb (Z.eqb v) (drop (length d - Z.to_nat v) d)) eqn:Hall;
    [| discriminate H].
  cbn [negb] in H. injection H as <-.
  apply forallb_eqb_replicate in Hall. rewrite length_drop in Hall.
  unfold byte in Hv.
  set (m := Z.to_nat v) in *.
  assert (1 <= m <= 16 /\ m <= length d /\ Z.of_nat m = v)%nat as (Hm & Hmd & Hmv)
    by (subst m; lia).
  replace (length d - (length d - m))%nat with m in Hall by lia.
  unfold pad. cbv zeta. rewrite length_take, Nat.min_l by lia.
  pose proof (Nat.div_mod_eq (length d - m) 16) as Hdm.
  pose proof (Nat.mod_upper_bound (length d - m) 16 ltac:(lia)) as Hlt.
  assert (16 - (length d - m) mod 16 = m)%nat as -> by lia.
  destruct (Nat.eqb_spec m 0) as [Hm0 | _]; [lia |].
  rewrite Hmv, <- Hall. apply take_drop.
Qed.

Section CbcBack.
Variables E D : list Z -> list Z.
Hypothesis E_shaped : forall b, shaped 16 b -> shaped 16 (E b).
Hypothesis D_shaped : forall b, shaped 16 b -> shaped 16 (D b).
Hypothesis E_D : forall b, shaped 16 b -> E (D b) = b.

Lemma shaped_cbc_decrypt_blocks (n : nat) (prev data : list Z) :
  shaped (16 * n) data -> shaped (16 * n) (cbc_decrypt_blocks n D prev data).
Proof.
  revert prev data. induction n as [| n IH]; intros prev data Hs; [apply shaped_nil |].
  cbn [cbc_decrypt_blocks]. apply shaped_blocks_succ.
  - eapply shaped_xor_into, D_shaped, shaped_take, Hs.
  - eapply IH, shaped_drop, Hs.
Qed.

Lemma cbc_blocks_redo (n : nat) (prev data : list Z) :
  shaped (16 * n) data ->
  cbc_encrypt_blocks n E prev (cbc_decrypt_blocks n D prev data) = data.
Proof.
  revert prev data. induction n as [| n IH]; intros prev data Hs.
  - destruct Hs as [Hl _]. destruct data; [reflexivity | discriminate Hl].
  - cbn [cbc_encrypt_blocks cbc_decrypt_blocks].
    pose proof (D_shaped _ (shaped_take _ _ Hs)) as Hd.
    pose proof (shaped_xor_into 16 _ prev Hd) as [Hxl _].
    rewrite take_app_length', drop_app_length' by (symmetry; exact Hxl).
    rewrite xor_into_xor_into by exact Hd.
    rewrite E_D by (eapply shaped_take, Hs).
    rewrite IH by (eapply shaped_drop, Hs).
    apply take_drop.
Qed.
End CbcBack.

Lemma aligned_shaped (c : list Z) :
  bytes c -> (length c mod 16 =? 0)%nat = true -> shaped (16 * (length c / 16)) c.
Proof.
  intros Hb Hal. apply Nat.eqb_eq in Hal. split; [| exact Hb].
  pose proof (Nat.div_mod_eq (length c) 16). lia.
Qed.

(** X13: for an instance the constructor returns, in ECB or CBC mode,
    whenever [decrypt] returns a plaintext for a ciphertext of bytes,
    [encrypt] of that plaintext returns the ciphertext again; so no two
    ciphertexts decrypt to the same plaintext, and the plaintext is 1 to
    16 bytes shorter than the ciphertext. *)
Theorem encrypt_decrypt (k : list Z) (options : option AESOptions) (this : AES)
    (c p : list Z) :
  new_AES k options = ok this ->
  mode this = Mode_ECB \/ mode this = Mode_CBC ->
  bytes c ->
  snd (decrypt this c) = ok p ->
  encrypt this p = (this, ok c) /\ (length p < length c <= length p + 16)%nat.
Proof.
  intros Hnew Hsupported Hb Hdec.
  assert (mode this = Mode_ECB \/ (mode this = Mode_CBC /\ iv this <> None)) as Hmode.
  { destruct Hsupported as [Hm | Hm]; [now left | right].
    destruct (new_AES_ok k options this Hnew) as (_ & _ & Hiv).
    destruct (Hiv Hm) as (v0 & Hv0 & _). split; [exact Hm | congruence]. }
  assert ((length c mod 16 =? 0)%nat = true) as Hal.
  { destruct (length c mod 16 =? 0)%nat eqn:Hal; [reflexivity |].
    unfold decrypt in Hdec. rewrite Hal in Hdec. discriminate Hdec. }
  pose proof (aligned_shaped c Hb Hal) as Hs.
  set (n := (length c / 16)%nat) in *.
  assert (forall d, shaped (16 * n) d -> pad p (padding this) 16 = d ->
                    (length p < length c <= length p + 16)%nat) as Hbound.
  { intros d [Hdl _] Hpad. destruct Hs as [Hcl _].
    destruct (pad_eq p (padding this)) as (m & q & Hm & _ & Hpe).
    rewrite Hpe in Hpad. apply (f_equal length) in Hpad.
    rewrite length_app, length_replicate in Hpad. lia. }
  destruct Hmode as [Hm | [Hm Hiv]].
  - rewrite (decrypt_ECB this c n Hm Hs) in Hdec. cbn [snd] in Hdec.
    pose proof (shaped_ecb_blocks _ (shaped_decryptBlock (key this)) n c Hs) as Hd.
    apply (pad_unpad n _ _ _ Hd) in Hdec.
    split; [| exact (Hbound _ Hd Hdec)].
    rewrite (encrypt_ECB this p n Hm) by (rewrite Hdec; exact Hd).
    rewrite Hdec.
    now rewrite (ecb_blocks_undo _ (shaped_decryptBlock (key this)) _
                   (encryptBlock_decryptBlock (key this)) n c Hs).
  - destruct (iv this) as [v |] eqn:Hv; [| congruence].
    rewrite (decrypt_CBC this c v n Hm Hv Hs) in Hdec. cbn [snd] in Hdec.
    pose proof (shaped_cbc_decrypt_blocks _ (shaped_decryptBlock (key this)) n v c Hs)
      as Hd.
    apply (pad_unpad n _ _ _ Hd) in Hdec.
    split; [| exact (Hbound _ Hd Hdec)].
    rewrite (encrypt_CBC this p v n Hm Hv) by (rewrite Hdec; exact Hd).
    rewrite Hdec.
    now rewrite (cbc_blocks_redo _ _ (shaped_decryptBlock (key this))
                   (encryptBlock_decryptBlock (key this)) n v c Hs).
Qed.

Lemma encrypt_decrypt_witness :
  exists this,
    new_AES test_key None = ok this /\
    encrypt this test_plaintext
    = (this, ok (test_cipher_block ++ test_cipher_block ++ padding_cipher_block)).
Proof.
  assert (exists this, new_AES test_key None = ok this /\ mode this = Mode_ECB)
    as (this & Hnew & Hm) by (eexists; split; vm_compute; reflexivity).
  exists this. split; [exact Hnew |].
  apply (encrypt_decrypt test_key None this
           (test_cipher_block ++ test_cipher_block ++ padding_cipher_block)
           test_plaintext Hnew (or_introl Hm)).
  - unfold bytes. repeat (constructor; [unfold byte; lia |]). constructor.
  - injection Hnew as <-. vm_compute. reflexivity.
Defined.

(** ** Decryption, block by block *)

Lemma cbc_decrypt_blocks_block (D : list Z -> list Z) (n j : nat) (prev data : list Z) :
  (forall b, shaped 16 b -> shaped 16 (D b)) ->
  shaped (16 * n) data -> (j < n)%nat ->
  block (cbc_decrypt_blocks n D prev data) j
  = xor_into (D (block data j))
      match j with
      | O => prev
      | S j' => block data j'
      end.
Proof.
  intros HD. revert j prev data. induction n as [| n IH]; intros j prev data Hs Hj; [lia |].
  cbn [cbc_decrypt_blocks].
  pose proof (shaped_xor_into 16 _ prev (HD _ (shaped_take _ _ Hs))) as [Hl _].
  destruct j as [| j].
  - now rewrite block_0_app, block_0.
  - rewrite block_S_app, block_S_drop by exact Hl.
    rewrite IH by (try (eapply shaped_drop, Hs); lia).
    destruct j as [| j]; [now rewrite (block_0 data) | now rewrite (block_S_drop data)].
Qed.

(** X14: in CBC mode [decrypt] removes the padding from a buffer whose
    block [j] is [decryptBlock] of ciphertext block [j] XORed with
    ciphertext block [j - 1], and with the IV for the first block: every
    plaintext block depends on two ciphertext blocks only. *)
Theorem cbc_decrypt_blocks_chained (this : AES) (v c : list Z) (n : nat) :
  bytes c -> length c = (16 * n)%nat -> mode this = Mode_CBC -> iv this = Some v ->
  exists d,
    decrypt this c = (this, unpad d (padding this) 16) /\
    length d = length c /\
    forall j, (j < n)%nat ->
      block d j
      = xor_into (decryptBlock (key this) (block c j))
          match j with
          | O => v
          | S j' => block c j'
          end.
Proof.
  intros Hb Hl Hm Hv. assert (shaped (16 * n) c) as Hs by (split; assumption).
  eexists. split; [apply (decrypt_CBC this c v n Hm Hv Hs) |].
  split.
  - destruct (shaped_cbc_decrypt_blocks _ (shaped_decryptBlock (key this)) n v c Hs)
      as [-> _]. now rewrite Hl.
  - intros j Hj. apply cbc_decrypt_blocks_block;
      [apply shaped_decryptBlock | exact Hs | exact Hj].
Qed.

Lemma cbc_decrypt_blocks_chained_witness :
  exists this d,
    new_AES test_key cbc_options = ok this /\
    decrypt this test_plaintext = (this, unpad d (padding this) 16) /\
    block d 1
    = xor_into (decryptBlock (key this) (block test_plaintext 1)) (block test_plaintext 0).
Proof.
  assert (exists this, new_AES test_key cbc_options = ok this /\
                       mode this = Mode_CBC /\ iv this = Some test_iv)
    as (this & Hnew & Hm & Hv) by (eexists; repeat split; vm_compute; reflexivity).
  assert (bytes test_plaintext) as Hp
    by (apply Forall_app; split; exact bytes_test_block).
  destruct (cbc_decrypt_blocks_chained this test_iv test_plaintext 2 Hp eq_refl Hm Hv)
    as (d & Hd & _ & Hblock).
  exists this, d. split; [exact Hnew |]. split; [exact Hd |].
  apply (Hblock 1%nat). lia.
Defined.

(** ** The key schedule helpers *)

(** X15: on a byte array, [rotWord] rotates the four bytes of a word by
    one place and [subWord] replaces each of them by its [SBOX] entry;
    the bytes before and after the word are left as they are. *)
Theorem word_helpers_in_place (pre post : list Z) (column : nat) (a b c d : Z) :
  length pre = (column * 4)%nat -> byte a -> byte b -> byte c -> byte d ->
  rotWord (pre ++ [a; b; c; d] ++ post) column = pre ++ [b; c; d; a] ++ post /\
  subWord (pre ++ [a; b; c; d] ++ post) column
  = pre ++ [sbox a; sbox b; sbox c; sbox d] ++ post.
Proof.
  intros Hpre Ha Hb Hc Hd. split.
  - exact (rotWord_window column pre post Hpre a b c d Ha Hb Hc Hd).
  - exact (subWord_window column pre post Hpre a b c d Ha Hb Hc Hd).
Qed.

Lemma word_helpers_in_place_witness :
  rotWord [9; 9; 9; 9; 1; 2; 3; 4; 7] 1 = [9; 9; 9; 9; 2; 3; 4; 1; 7].
Proof.
  apply (word_helpers_in_place [9; 9; 9; 9] [7] 1 1 2 3 4); try reflexivity;
    unfold byte; lia.
Defined.

(** X16: for a key of 16, 24 or 32 bytes the expanded key is an array of
    bytes that starts with the key itself, so round key 0 is the first
    16 bytes of the key. *)
Theorem keyExpansion_starts_with_key (k : list Z) :
  (length k = 16 \/ length k = 24 \/ length k = 32)%nat -> bytes k ->
  bytes (keyExpansion k) /\
  take (length k) (keyExpansion k) = k /\
  forall state, addRoundKey (keyExpansion k) state 0 = addRoundKey k state 0.
Proof.
  intros Hlen Hb. rewrite (keyExpansion_expand k Hlen Hb).
  destruct (expand_words_prefix (length k / 4) (4 * (length k / 4 + 6 + 1) - length k / 4)
              (length k / 4) k) as [rest Hrest].
  split; [now apply bytes_expand_words |].
  rewrite Hrest. split; [apply take_app_length |].
  intros state. unfold addRoundKey, for_range.
  assert (forall j, (j < 16)%nat -> rd (k ++ rest) j = rd k j) as Hrd
    by (intros j Hj; apply rd_before; lia).
  cbn [seq fold_left Nat.mul Nat.add]. now rewrite !Hrd by lia.
Qed.

Lemma keyExpansion_starts_with_key_witness :
  take 16 (keyExpansion test_key) = test_key.
Proof.
  apply (keyExpansion_starts_with_key test_key (or_introl eq_refl) bytes_test_block).
Defined.

(** ** The IV in CBC mode *)

(** X17: in CBC mode the IV decides the ciphertext from its first block
    on: two instances that differ only in their 16-byte IV return, on
    every input of bytes, ciphertexts with different first blocks. *)
Theorem cbc_iv_matters (this this' : AES) (v v' data : list Z) :
  mode this = Mode_CBC -> mode this' = Mode_CBC ->
  key this' = key this ->
  iv this = Some v -> iv this' = Some v' ->
  length v = 16%nat -> bytes v -> length v' = 16%nat -> bytes v' ->
  v <> v' -> bytes data ->
  exists c c',
    encrypt this data = (this, ok c) /\ encrypt this' data = (this', ok c') /\
    block c 0 <> block c' 0.
Proof.
  intros Hm Hm' Hk Hv Hv' Hl Hb Hl' Hb' Hne Hd.
  assert (padding this' = padding this) as Hp by (now destruct (padding this), (padding this')).
  pose proof (shaped_pad_exact data (padding this) Hd) as Hs.
  assert (shaped 16 (block (pad data (padding this) 16) 0)) as Hb0.
  { rewrite block_0.
    replace (16 * (length data / 16 + 1))%nat with (16 * S (length data / 16))%nat in Hs
      by lia.
    exact (shaped_take _ _ Hs). }
  do 2 eexists. split; [apply (encrypt_CBC this data v _ Hm Hv Hs) |].
  split; [rewrite <- Hp in Hs; apply (encrypt_CBC this' data v' _ Hm' Hv' Hs) |].
  rewrite Hp, Hk in *.
  rewrite !cbc_encrypt_blocks_block
    by (try apply shaped_encryptBlock; try exact Hs; lia).
  intros Heq. apply Hne.
  apply (f_equal (decryptBlock (key this))) in Heq.
  rewrite !decryptBlock_encryptBlock in Heq by (apply shaped_xor_into; exact Hb0).
  apply (xor_into_cancel _ v v' Hb0); [now split | now split | exact Heq].
Qed.

Lemma cbc_iv_matters_witness :
  exists this this' c c',
    new_AES test_key cbc_options = ok this /\
    new_AES test_key
      (Some {| opt_mode := Some Mode_CBC; opt_iv := Some (zeros 16); opt_padding := None |})
    = ok this' /\
    encrypt this test_plaintext = (this, ok c) /\
    encrypt this' test_plaintext = (this', ok c') /\
    block c 0 <> block c' 0.
Proof.
  assert (exists this, new_AES test_key cbc_options = ok this /\
                       mode this = Mode_CBC /\ iv this = Some test_iv /\
                       key this = keyExpansion test_key)
    as (this & Hnew & Hm & Hv & Hk).
  { eexists. split; [vm_compute; reflexivity |]. repeat split. }
  assert (exists this',
            new_AES test_key
              (Some {| opt_mode := Some Mode_CBC; opt_iv := Some (zeros 16);
                       opt_padding := None |}) = ok this' /\
            mode this' = Mode_CBC /\ iv this' = Some (zeros 16) /\
            key this' = keyExpansion test_key)
    as (this' & Hnew' & Hm' & Hv' & Hk').
  { eexists. split; [vm_compute; reflexivity |]. repeat split. }
  assert (bytes test_plaintext) as Hp
    by (apply Forall_app; split; exact bytes_test_block).
  assert (bytes (zeros 16)) as Hz
    by (unfold bytes; repeat (constructor; [unfold byte; lia |]); constructor).
  assert (test_iv <> zeros 16) as Hne by discriminate.
  assert (key this' = key this) as Hkk by (now rewrite Hk, Hk').
  destruct (cbc_iv_matters this this' test_iv (zeros 16) test_plaintext
              Hm Hm' Hkk Hv Hv' eq_refl bytes_test_block eq_refl Hz Hne Hp)
    as (c & c' & Hc & Hc' & Hdiff).
  exists this, this', c, c'. auto.
Defined.
